(** * Blog Management System: a shallow embedding of [src/main.py]

    The FastAPI handlers of [main.py] are embedded as functions in a small
    state-and-exception monad over the six module-level globals
    ([users_db], [posts_db], [likes_db], [comments_db], [post_counter],
    [comment_counter]).  An exception raised by a handler does not roll the
    globals back, so the monad threads the store through failures too.

    Modelling choices:
    - Python [int] is [Z]; [datetime] is a [Z] count of microseconds;
      [str] is [string].
    - [posts_db] is iterated by [get_all_posts], so it is kept as an
      insertion-ordered dictionary (an association list with the CPython
      [dict] operations); the other three dictionaries are only ever
      looked up by key and are [gmap]s; a like set is a [gset string].
    - [passlib] and [jwt] are libraries outside the repository: their
      entry points are section variables, never assumed to satisfy anything.
      [pwd_context.hash] and [pwd_context.verify] may raise (passlib rejects,
      for one, a password holding a NUL byte); the handlers do not catch
      that, so it is an outcome of its own, [Unhandled].
    - a handler receives Pydantic model instances, which satisfy the [Field]
      constraints of their class by construction: the records [BlogPost],
      [BlogPostUpdate] and [Comment] carry them.  A [string] stands for a
      Python [str], one character per position.
    - the wall clock and the bcrypt salt are inputs of each request. *)

From Stdlib Require Import ZArith.
From stdpp Require Import gmap strings list fin_maps sorting.

#[local] Set Warnings "-clear-no-such-hyp".

Local Open Scope string_scope.
Local Open Scope list_scope.
Local Open Scope Z_scope.

(** ** Insertion-ordered dictionaries with integer keys (CPython [dict]) *)

Module OrderedDict.
Section ordered_dict.
Context {V : Type}.

(** [k in d] / [d.get(k)] *)
Fixpoint get (k : Z) (d : list (Z * V)) : option V :=
  match d with
  | [] => None
  | (k', v) :: d' => if decide (k = k') then Some v else get k d'
  end.

(** [d[k] = v]: an existing key keeps its position, a new key goes last. *)
Fixpoint set (k : Z) (v : V) (d : list (Z * V)) : list (Z * V) :=
  match d with
  | [] => [(k, v)]
  | (k', v') :: d' =>
      if decide (k = k') then (k, v) :: d' else (k', v') :: set k v d'
  end.

(** [del d[k]] *)
Fixpoint del (k : Z) (d : list (Z * V)) : list (Z * V) :=
  match d with
  | [] => []
  | (k', v') :: d' => if decide (k = k') then del k d' else (k', v') :: del k d'
  end.

(** [d.keys()] in iteration order *)
Definition keys (d : list (Z * V)) : list Z := d.*1.
End ordered_dict.
End OrderedDict.

(** ** [sorted(l, key=..., reverse=True)]

    CPython's [list.sort] is stable, and with [reverse=True] it reverses the
    list, runs the stable ascending sort, and reverses the result.  The stable
    ascending sort is embedded as a straight insertion sort (timsort computes
    the same list: the stable sorted arrangement of a list is unique). *)

Section python_sorted.
Context {A : Type} (key : A → Z).

Fixpoint insert_by_key (x : A) (l : list A) : list A :=
  match l with
  | [] => [x]
  | y :: l' =>
      if decide (key x ≤ key y) then x :: y :: l' else y :: insert_by_key x l'
  end.

Fixpoint stable_sort (l : list A) : list A :=
  match l with
  | [] => []
  | x :: l' => insert_by_key x (stable_sort l')
  end.

Definition sorted (rev : bool) (l : list A) : list A :=
  if rev then reverse (stable_sort (reverse l)) else stable_sort l.
End python_sorted.

(** ** Pydantic models and stored records *)

(** [Field(..., min_length=, max_length=)] constraints of a [str] field. *)
Record Field := { min_length : option nat; max_length : option nat }.

Definition unconstrained : Field := {| min_length := None; max_length := None |}.

Definition field_ok (f : Field) (s : string) : bool :=
  match min_length f with Some n => bool_decide (n ≤ String.length s)%nat | None => true end
  && match max_length f with Some n => bool_decide (String.length s ≤ n)%nat | None => true end.

Record User := { u_username : string; u_email : string; u_password : string }.

(** [class User(BaseModel)]: three bare [str] annotations, no [Field]. *)
Definition User_fields : Field * Field * Field :=
  (unconstrained, unconstrained, unconstrained).

Definition User_valid (u : User) : bool :=
  let '(f_username, f_email, f_password) := User_fields in
  field_ok f_username (u_username u) && field_ok f_email (u_email u)
  && field_ok f_password (u_password u).

Record UserLogin := { ul_username : string; ul_password : string }.
Record UserResponse := { ur_username : string; ur_email : string }.
Record Token := { access_token : string; token_type : string }.

(** [Field(..., min_length=1, max_length=200)] *)
Definition title_field : Field :=
  {| min_length := Some 1%nat; max_length := Some 200%nat |}.

(** [Field(..., min_length=1)] *)
Definition content_field : Field :=
  {| min_length := Some 1%nat; max_length := None |}.

(** [Field(..., min_length=1, max_length=1000)] *)
Definition comment_field : Field :=
  {| min_length := Some 1%nat; max_length := Some 1000%nat |}.

(** An [Optional[str]] field defaulting to [None]: the constraints bear on a
    value that is given. *)
Definition optional_field_ok (f : Field) (o : option string) : bool :=
  match o with
  | Some v => field_ok f v
  | None => true
  end.

(** [class BlogPost(BaseModel)]: an instance has passed validation. *)
Record BlogPost := {
  bp_title : string;
  bp_content : string;
  bp_author : option string;
  bp_valid :
    field_ok title_field bp_title && field_ok content_field bp_content = true
}.

(** [class BlogPostUpdate(BaseModel)] *)
Record BlogPostUpdate := {
  bu_title : option string;
  bu_content : option string;
  bu_valid :
    optional_field_ok title_field bu_title
    && optional_field_ok content_field bu_content = true
}.

(** [class Comment(BaseModel)] *)
Record Comment := {
  cm_content : string;
  cm_valid : field_ok comment_field cm_content = true
}.

(** The dictionary stored under [posts_db[post_id]]. *)
Record post_data := {
  pd_id : Z;
  pd_title : string;
  pd_content : string;
  pd_author : string;
  pd_created_at : Z;
  pd_updated_at : Z
}.

Record BlogPostResponse := {
  id : Z;
  title : string;
  content : string;
  author : string;
  created_at : Z;
  updated_at : Z;
  likes_count : Z;
  comments_count : Z
}.

(** The dictionary appended to [comments_db[post_id]]. *)
Record comment_data := {
  cd_id : Z;
  cd_content : string;
  cd_author : string;
  cd_post_id : Z;
  cd_created_at : Z
}.

Record CommentResponse := {
  cr_id : Z;
  cr_content : string;
  cr_author : string;
  cr_post_id : Z;
  cr_created_at : Z
}.

Record LikeResponse := { message : string; lr_likes_count : Z }.

(** The dictionary stored under [users_db[username]]. *)
Record user_data := {
  ud_username : string;
  ud_email : string;
  ud_hashed_password : string
}.

Record HTTPException := { status_code : Z; detail : string }.

Definition HTTP_400_BAD_REQUEST : Z := 400.
Definition HTTP_401_UNAUTHORIZED : Z := 401.
Definition HTTP_403_FORBIDDEN : Z := 403.
Definition HTTP_404_NOT_FOUND : Z := 404.

(** Claims carried by a token: [{"sub": ..., "exp": ...}]. *)
Record jwt_payload := { sub : option string; exp : Z }.

(** ** The module-level globals *)

Record db := {
  users_db : gmap string user_data;
  posts_db : list (Z * post_data);
  likes_db : gmap Z (gset string);
  comments_db : gmap Z (list comment_data);
  post_counter : Z;
  comment_counter : Z
}.

Definition init_db : db :=
  {| users_db := ∅; posts_db := []; likes_db := ∅; comments_db := ∅;
     post_counter := 0; comment_counter := 0 |}.

Definition with_users_db (v : gmap string user_data) (s : db) : db :=
  {| users_db := v; posts_db := posts_db s; likes_db := likes_db s;
     comments_db := comments_db s; post_counter := post_counter s;
     comment_counter := comment_counter s |}.

Definition with_posts_db (v : list (Z * post_data)) (s : db) : db :=
  {| users_db := users_db s; posts_db := v; likes_db := likes_db s;
     comments_db := comments_db s; post_counter := post_counter s;
     comment_counter := comment_counter s |}.

Definition with_likes_db (v : gmap Z (gset string)) (s : db) : db :=
  {| users_db := users_db s; posts_db := posts_db s; likes_db := v;
     comments_db := comments_db s; post_counter := post_counter s;
     comment_counter := comment_counter s |}.

Definition with_comments_db (v : gmap Z (list comment_data)) (s : db) : db :=
  {| users_db := users_db s; posts_db := posts_db s; likes_db := likes_db s;
     comments_db := v; post_counter := post_counter s;
     comment_counter := comment_counter s |}.

Definition with_post_counter (v : Z) (s : db) : db :=
  {| users_db := users_db s; posts_db := posts_db s; likes_db := likes_db s;
     comments_db := comments_db s; post_counter := v;
     comment_counter := comment_counter s |}.

Definition with_comment_counter (v : Z) (s : db) : db :=
  {| users_db := users_db s; posts_db := posts_db s; likes_db := likes_db s;
     comments_db := comments_db s; post_counter := post_counter s;
     comment_counter := v |}.

(** ** The handler monad: global state plus [raise HTTPException] *)

(** [Unhandled] is an exception other than [HTTPException] leaving the
    handler: nothing in [main.py] catches it and the server answers 500. *)
Inductive result (A : Type) : Type :=
  | Ok (a : A)
  | Raise (e : HTTPException)
  | Unhandled.
Arguments Ok {A} a.
Arguments Raise {A} e.
Arguments Unhandled {A}.

Definition M (A : Type) : Type := db → result A * db.

Definition ret {A} (a : A) : M A := λ s, (Ok a, s).
Definition raise {A} (e : HTTPException) : M A := λ s, (Raise e, s).
Definition unhandled {A} : M A := λ s, (Unhandled, s).
Definition bind {A B} (c : M A) (k : A → M B) : M B :=
  λ s, match c s with
       | (Ok a, s') => k a s'
       | (Raise e, s') => (Raise e, s')
       | (Unhandled, s') => (Unhandled, s')
       end.
Definition read : M db := λ s, (Ok s, s).
Definition write (f : db → db) : M unit := λ s, (Ok tt, f s).

Notation "'let*' x ':=' c 'in' k" := (bind c (λ x, k))
  (at level 10, x name, c at level 100, k at level 200, only parsing).
Notation "c '>>' k" := (bind c (λ _, k))
  (at level 100, k at level 200, right associativity, only parsing).

(** ** What a request reads from outside the process *)

Record env := {
  utcnow : Z;       (* the value of [datetime.utcnow()] in the handler body *)
  jwt_clock : Z;    (* the clock [jwt.decode] checks ["exp"] against *)
  salt : string     (* the random salt [pwd_context.hash] draws *)
}.

Definition SECRET_KEY : string := "your-secret-key-change-in-production".
Definition ALGORITHM : string := "HS256".
Definition ACCESS_TOKEN_EXPIRE_MINUTES : Z := 30.

(** [timedelta(minutes=n)] in microseconds. *)
Definition timedelta_minutes (n : Z) : Z := n * 60 * 1000000.

Inductive request : Type :=
  | Req_register (user : User)
  | Req_login (user_login : UserLogin)
  | Req_create_post (post : BlogPost) (credentials : string)
  | Req_get_all_posts
  | Req_get_post (post_id : Z)
  | Req_update_post (post_id : Z) (post_update : BlogPostUpdate) (credentials : string)
  | Req_delete_post (post_id : Z) (credentials : string)
  | Req_like_post (post_id : Z) (credentials : string)
  | Req_unlike_post (post_id : Z) (credentials : string)
  | Req_add_comment (post_id : Z) (comment : Comment) (credentials : string)
  | Req_get_comments (post_id : Z)
  | Req_health_check.

Inductive response : Type :=
  | Resp_user (r : UserResponse)
  | Resp_token (r : Token)
  | Resp_post (r : BlogPostResponse)
  | Resp_posts (r : list BlogPostResponse)
  | Resp_message (r : string)
  | Resp_like (r : LikeResponse)
  | Resp_comment (r : CommentResponse)
  | Resp_comments (r : list CommentResponse)
  | Resp_health (status : string) (timestamp : Z).

(** The [BlogPostResponse] built from the unpacked [post_data] and the two counts. *)
Definition mk_BlogPostResponse (d : post_data) (likes comments : Z) : BlogPostResponse :=
  {| id := pd_id d; title := pd_title d; content := pd_content d;
     author := pd_author d; created_at := pd_created_at d;
     updated_at := pd_updated_at d;
     likes_count := likes; comments_count := comments |}.

(** The [CommentResponse] built from an unpacked comment dictionary. *)
Definition mk_CommentResponse (c : comment_data) : CommentResponse :=
  {| cr_id := cd_id c; cr_content := cd_content c; cr_author := cd_author c;
     cr_post_id := cd_post_id c; cr_created_at := cd_created_at c |}.

(** [len(likes_db.get(post_id, set()))] *)
Definition likes_of (s : db) (post_id : Z) : gset string :=
  default ∅ (likes_db s !! post_id).

(** [comments_db.get(post_id, [])] *)
Definition comments_of (s : db) (post_id : Z) : list comment_data :=
  default [] (comments_db s !! post_id).

Definition len_set (X : gset string) : Z := Z.of_nat (size X).
Definition len_list {A} (l : list A) : Z := Z.of_nat (length l).

Definition post_not_found : HTTPException :=
  {| status_code := HTTP_404_NOT_FOUND; detail := "Post not found" |}.

Section handlers.
(** [pwd_context.hash], [pwd_context.verify] ([None] when passlib raises),
    [jwt.encode], [jwt.decode] ([None] for a raised [jwt.PyJWTError]). *)
Variable pwd_hash : string → string → option string.
Variable pwd_verify : string → string → option bool.
Variable jwt_encode : jwt_payload → string → string → string.
Variable jwt_decode : string → string → list string → Z → option jwt_payload.

Definition hash_password (e : env) (password : string) : M string :=
  match pwd_hash (salt e) password with
  | Some hashed => ret hashed
  | None => unhandled
  end.

Definition verify_password (plain_password hashed_password : string) : M bool :=
  match pwd_verify plain_password hashed_password with
  | Some ok => ret ok
  | None => unhandled
  end.

(** [if expires_delta:] is false for [None] and for a zero [timedelta]. *)
Definition create_access_token (e : env) (data_sub : string)
    (expires_delta : option Z) : string :=
  let expire :=
    match expires_delta with
    | Some d => if decide (d = 0) then utcnow e + timedelta_minutes 15
                else utcnow e + d
    | None => utcnow e + timedelta_minutes 15
    end in
  jwt_encode {| sub := Some data_sub; exp := expire |} SECRET_KEY ALGORITHM.

Definition decode_access_token (e : env) (token : string) : M string :=
  match jwt_decode token SECRET_KEY [ALGORITHM] (jwt_clock e) with
  | Some payload =>
      match sub payload with
      | None => raise {| status_code := HTTP_401_UNAUTHORIZED;
                         detail := "Could not validate credentials" |}
      | Some username => ret username
      end
  | None => raise {| status_code := HTTP_401_UNAUTHORIZED;
                     detail := "Could not validate credentials" |}
  end.

Definition get_current_user (e : env) (credentials : string) : M string :=
  let* username := decode_access_token e credentials in
  let* s := read in
  match users_db s !! username with
  | None => raise {| status_code := HTTP_401_UNAUTHORIZED;
                     detail := "User not found" |}
  | Some _ => ret username
  end.

Definition register (e : env) (user : User) : M UserResponse :=
  let* s := read in
  match users_db s !! u_username user with
  | Some _ => raise {| status_code := HTTP_400_BAD_REQUEST;
                       detail := "Username already registered" |}
  | None =>
      let* hashed_password := hash_password e (u_password user) in
      write (λ s, with_users_db
               (<[u_username user :=
                    {| ud_username := u_username user;
                       ud_email := u_email user;
                       ud_hashed_password := hashed_password |}]> (users_db s)) s) >>
      ret {| ur_username := u_username user; ur_email := u_email user |}
  end.

Definition login (e : env) (user_login : UserLogin) : M Token :=
  let* s := read in
  match users_db s !! ul_username user_login with
  | None => raise {| status_code := HTTP_401_UNAUTHORIZED;
                     detail := "Incorrect username or password" |}
  | Some user_data =>
      let* verified :=
        verify_password (ul_password user_login) (ud_hashed_password user_data) in
      if negb verified
      then raise {| status_code := HTTP_401_UNAUTHORIZED;
                    detail := "Incorrect username or password" |}
      else
        let access_token_expires := timedelta_minutes ACCESS_TOKEN_EXPIRE_MINUTES in
        let access_token :=
          create_access_token e (ul_username user_login) (Some access_token_expires) in
        ret {| access_token := access_token; token_type := "bearer" |}
  end.

Definition create_post (e : env) (post : BlogPost) (credentials : string)
    : M BlogPostResponse :=
  let* current_user := get_current_user e credentials in
  write (λ s, with_post_counter (post_counter s + 1) s) >>
  let now := utcnow e in
  let* s := read in
  let post_data :=
    {| pd_id := post_counter s; pd_title := bp_title post;
       pd_content := bp_content post; pd_author := current_user;
       pd_created_at := now; pd_updated_at := now |} in
  write (λ s, with_posts_db
           (OrderedDict.set (post_counter s) post_data (posts_db s)) s) >>
  write (λ s, with_likes_db (<[post_counter s := ∅]> (likes_db s)) s) >>
  write (λ s, with_comments_db (<[post_counter s := []]> (comments_db s)) s) >>
  ret (mk_BlogPostResponse post_data 0 0).

Definition get_all_posts : M (list BlogPostResponse) :=
  let* s := read in
  let result :=
    (λ '(post_id, post_data),
       let likes_count := len_set (likes_of s post_id) in
       let comments_count := len_list (comments_of s post_id) in
       mk_BlogPostResponse post_data likes_count comments_count)
    <$> posts_db s in
  ret (sorted created_at true result).

Definition get_post (post_id : Z) : M BlogPostResponse :=
  let* s := read in
  match OrderedDict.get post_id (posts_db s) with
  | None => raise post_not_found
  | Some post_data =>
      let likes_count := len_set (likes_of s post_id) in
      let comments_count := len_list (comments_of s post_id) in
      ret (mk_BlogPostResponse post_data likes_count comments_count)
  end.

Definition set_title (v : string) (d : post_data) : post_data :=
  {| pd_id := pd_id d; pd_title := v; pd_content := pd_content d;
     pd_author := pd_author d; pd_created_at := pd_created_at d;
     pd_updated_at := pd_updated_at d |}.

Definition set_content (v : string) (d : post_data) : post_data :=
  {| pd_id := pd_id d; pd_title := pd_title d; pd_content := v;
     pd_author := pd_author d; pd_created_at := pd_created_at d;
     pd_updated_at := pd_updated_at d |}.

Definition set_updated_at (v : Z) (d : post_data) : post_data :=
  {| pd_id := pd_id d; pd_title := pd_title d; pd_content := pd_content d;
     pd_author := pd_author d; pd_created_at := pd_created_at d;
     pd_updated_at := v |}.

(** [post_data] aliases the dictionary held in [posts_db]: the three
    assignments mutate the stored entry, which keeps its place. *)
Definition update_post (e : env) (post_id : Z) (post_update : BlogPostUpdate)
    (credentials : string) : M BlogPostResponse :=
  let* current_user := get_current_user e credentials in
  let* s := read in
  match OrderedDict.get post_id (posts_db s) with
  | None => raise post_not_found
  | Some post_data =>
      if decide (pd_author post_data ≠ current_user)
      then raise {| status_code := HTTP_403_FORBIDDEN;
                    detail := "Not authorized to update this post" |}
      else
        let post_data :=
          match bu_title post_update with
          | Some t => set_title t post_data
          | None => post_data
          end in
        let post_data :=
          match bu_content post_update with
          | Some c => set_content c post_data
          | None => post_data
          end in
        let post_data := set_updated_at (utcnow e) post_data in
        write (λ s, with_posts_db
                 (OrderedDict.set post_id post_data (posts_db s)) s) >>
        let* s := read in
        let likes_count := len_set (likes_of s post_id) in
        let comments_count := len_list (comments_of s post_id) in
        ret (mk_BlogPostResponse post_data likes_count comments_count)
  end.

Definition delete_post (e : env) (post_id : Z) (credentials : string) : M string :=
  let* current_user := get_current_user e credentials in
  let* s := read in
  match OrderedDict.get post_id (posts_db s) with
  | None => raise post_not_found
  | Some post_data =>
      if decide (pd_author post_data ≠ current_user)
      then raise {| status_code := HTTP_403_FORBIDDEN;
                    detail := "Not authorized to delete this post" |}
      else
        write (λ s, with_posts_db (OrderedDict.del post_id (posts_db s)) s) >>
        let* s := read in
        (match likes_db s !! post_id with
         | Some _ => write (λ s, with_likes_db (delete post_id (likes_db s)) s)
         | None => ret tt
         end) >>
        let* s := read in
        (match comments_db s !! post_id with
         | Some _ => write (λ s, with_comments_db (delete post_id (comments_db s)) s)
         | None => ret tt
         end) >>
        ret "Post deleted successfully"
  end.

Definition like_post (e : env) (post_id : Z) (credentials : string)
    : M LikeResponse :=
  let* current_user := get_current_user e credentials in
  let* s := read in
  match OrderedDict.get post_id (posts_db s) with
  | None => raise post_not_found
  | Some _ =>
      (match likes_db s !! post_id with
       | None => write (λ s, with_likes_db (<[post_id := ∅]> (likes_db s)) s)
       | Some _ => ret tt
       end) >>
      let* s := read in
      if decide (current_user ∈ likes_of s post_id)
      then raise {| status_code := HTTP_400_BAD_REQUEST;
                    detail := "You have already liked this post" |}
      else
        write (λ s, with_likes_db
                 (<[post_id := likes_of s post_id ∪ {[current_user]}]> (likes_db s)) s) >>
        let* s := read in
        let likes_count := len_set (likes_of s post_id) in
        ret {| message := "Post liked successfully"; lr_likes_count := likes_count |}
  end.

Definition unlike_post (e : env) (post_id : Z) (credentials : string)
    : M LikeResponse :=
  let* current_user := get_current_user e credentials in
  let* s := read in
  match OrderedDict.get post_id (posts_db s) with
  | None => raise post_not_found
  | Some _ =>
      let not_liked :=
        match likes_db s !! post_id with
        | None => true
        | Some likes => bool_decide (current_user ∉ likes)
        end in
      if not_liked
      then raise {| status_code := HTTP_400_BAD_REQUEST;
                    detail := "You haven't liked this post" |}
      else
        write (λ s, with_likes_db
                 (<[post_id := likes_of s post_id ∖ {[current_user]}]> (likes_db s)) s) >>
        let* s := read in
        let likes_count := len_set (likes_of s post_id) in
        ret {| message := "Post unliked successfully"; lr_likes_count := likes_count |}
  end.

Definition add_comment (e : env) (post_id : Z) (comment : Comment)
    (credentials : string) : M CommentResponse :=
  let* current_user := get_current_user e credentials in
  let* s := read in
  match OrderedDict.get post_id (posts_db s) with
  | None => raise post_not_found
  | Some _ =>
      write (λ s, with_comment_counter (comment_counter s + 1) s) >>
      let* s := read in
      let comment_data :=
        {| cd_id := comment_counter s; cd_content := cm_content comment;
           cd_author := current_user; cd_post_id := post_id;
           cd_created_at := utcnow e |} in
      (match comments_db s !! post_id with
       | None => write (λ s, with_comments_db (<[post_id := []]> (comments_db s)) s)
       | Some _ => ret tt
       end) >>
      write (λ s, with_comments_db
               (<[post_id := (comments_of s post_id ++ [comment_data])%list]> (comments_db s)) s) >>
      ret (mk_CommentResponse comment_data)
  end.

Definition get_comments (post_id : Z) : M (list CommentResponse) :=
  let* s := read in
  match OrderedDict.get post_id (posts_db s) with
  | None => raise post_not_found
  | Some _ =>
      let comments := comments_of s post_id in
      ret (mk_CommentResponse <$> comments)
  end.

Definition health_check (e : env) : M (string * Z) :=
  ret ("healthy", utcnow e).

(** ** The application: one request, dispatched to its handler *)

Definition fmapM {A B} (f : A → B) (c : M A) : M B :=
  let* a := c in ret (f a).

Definition handle (e : env) (r : request) : M response :=
  match r with
  | Req_register user => fmapM Resp_user (register e user)
  | Req_login user_login => fmapM Resp_token (login e user_login)
  | Req_create_post post cred => fmapM Resp_post (create_post e post cred)
  | Req_get_all_posts => fmapM Resp_posts get_all_posts
  | Req_get_post post_id => fmapM Resp_post (get_post post_id)
  | Req_update_post post_id upd cred =>
      fmapM Resp_post (update_post e post_id upd cred)
  | Req_delete_post post_id cred => fmapM Resp_message (delete_post e post_id cred)
  | Req_like_post post_id cred => fmapM Resp_like (like_post e post_id cred)
  | Req_unlike_post post_id cred => fmapM Resp_like (unlike_post e post_id cred)
  | Req_add_comment post_id c cred =>
      fmapM Resp_comment (add_comment e post_id c cred)
  | Req_get_comments post_id => fmapM Resp_comments (get_comments post_id)
  | Req_health_check => fmapM (λ '(st, ts), Resp_health st ts) (health_check e)
  end.

(** A process lifetime: requests served one after another. *)
Fixpoint run (reqs : list (env * request)) (s : db)
    : list (result response) * db :=
  match reqs with
  | [] => ([], s)
  | (e, r) :: reqs' =>
      let '(out, s1) := handle e r s in
      let '(outs, s2) := run reqs' s1 in
      (out :: outs, s2)
  end.

(** The states the process can be in. *)
Inductive reachable : db → Prop :=
  | reachable_init : reachable init_db
  | reachable_step s e r : reachable s → reachable (handle e r s).2.

End handlers.

(** ** A concrete instance of the external libraries, for closed examples *)

Module Toy.
(** Does the password hold a NUL byte?  The hasher refuses such a password,
    as passlib's bcrypt handler does. *)
Fixpoint has_nul (password : string) : bool :=
  match password with
  | EmptyString => false
  | String c rest => bool_decide (c = Ascii.zero) || has_nul rest
  end.

Definition pwd_hash (salt password : string) : option string :=
  if has_nul password then None else Some (salt +:+ "$" +:+ password).
Definition pwd_verify (plain hashed : string) : option bool :=
  if has_nul plain then None else Some (bool_decide (hashed = "s$" +:+ plain)).
Definition jwt_encode (p : jwt_payload) (key alg : string) : string :=
  default EmptyString (sub p).
(** A token is its subject; the token ["bad"] fails to decode. *)
Definition jwt_decode (token key : string) (algs : list string) (now : Z)
    : option jwt_payload :=
  if decide (token = "bad") then None else Some {| sub := Some token; exp := 0 |}.

Definition env0 (t : Z) : env := {| utcnow := t; jwt_clock := t; salt := "s" |}.

Definition handle := handle pwd_hash pwd_verify jwt_encode jwt_decode.
Definition run := run pwd_hash pwd_verify jwt_encode jwt_decode.
End Toy.

(** ** Notions used to state the properties *)

(** The relational shape of the stores: post ids were handed out in
    increasing order and never exceed the counter, every stored post carries
    its own key as ["id"], and the like and comment stores have exactly the
    post ids as keys. *)
Record wf (s : db) : Prop := {
  wf_keys_sorted : StronglySorted Z.lt (OrderedDict.keys (posts_db s));
  wf_entries :
    Forall (λ kv : Z * post_data, kv.1 ≤ post_counter s ∧ pd_id kv.2 = kv.1)
      (posts_db s);
  wf_likes : dom (likes_db s) = list_to_set (OrderedDict.keys (posts_db s));
  wf_comments : dom (comments_db s) = list_to_set (OrderedDict.keys (posts_db s))
}.

(** The mutating post endpoints: each carries bearer credentials. *)
Definition credentials_of (r : request) : option string :=
  match r with
  | Req_create_post _ c | Req_update_post _ _ c | Req_delete_post _ c
  | Req_like_post _ c | Req_unlike_post _ c | Req_add_comment _ _ c => Some c
  | _ => None
  end.

(** The post a mutating endpoint is aimed at ([create_post] has none). *)
Definition target_of (r : request) : option Z :=
  match r with
  | Req_update_post p _ _ | Req_delete_post p _
  | Req_like_post p _ | Req_unlike_post p _ | Req_add_comment p _ _ => Some p
  | _ => None
  end.

(** The endpoints reserved to the post's author. *)
Definition owner_only (r : request) : bool :=
  match r with
  | Req_update_post _ _ _ | Req_delete_post _ _ => true
  | _ => false
  end.

(** The post id handed out by a served request, if it created a post. *)
Definition assigned_post_id (r : request) (out : result response) : option Z :=
  match r, out with
  | Req_create_post _ _, Ok (Resp_post b) => Some (id b)
  | _, _ => None
  end.

(** The comment id handed out by a served request, if it created a comment. *)
Definition assigned_comment_id (r : request) (out : result response) : option Z :=
  match r, out with
  | Req_add_comment _ _ _, Ok (Resp_comment c) => Some (cr_id c)
  | _, _ => None
  end.

(** Ids handed out along a run, in the order the requests were served. *)
Fixpoint assigned (f : request → result response → option Z)
    (reqs : list (env * request)) (outs : list (result response)) : list Z :=
  match reqs, outs with
  | (_, r) :: reqs', out :: outs' =>
      match f r out with
      | Some i => i :: assigned f reqs' outs'
      | None => assigned f reqs' outs'
      end
  | _, _ => []
  end.

(** Keys ascending, and elements with the same key in the order [before]. *)
Definition key_then {A} (key : A → Z) (before : relation A) : relation A :=
  λ a b, key a ≤ key b ∧ (key a = key b → before a b).

(** Newest first, posts with the same [created_at] by decreasing id. *)
Definition newest_first_ties_id_descending : relation BlogPostResponse :=
  λ a b, created_at b ≤ created_at a ∧ (created_at a = created_at b → id b < id a).

(** Newest first, posts with the same [created_at] in insertion order, which
    is by increasing id. *)
Definition newest_first_ties_id_ascending : relation BlogPostResponse :=
  λ a b, created_at b ≤ created_at a ∧ (created_at a = created_at b → id a < id b).

(** What [update_post] leaves in the stored entry. *)
Definition patched (e : env) (post_update : BlogPostUpdate) (d : post_data) : post_data :=
  {| pd_id := pd_id d;
     pd_title := default (pd_title d) (bu_title post_update);
     pd_content := default (pd_content d) (bu_content post_update);
     pd_author := pd_author d;
     pd_created_at := pd_created_at d;
     pd_updated_at := utcnow e |}.

(** Everything one served request can do to the stores: either nothing, or
    exactly one of the seven writes below. *)
Inductive effect (s : db) : request → result response → db → Prop :=
  | eff_raise r x : effect s r (Raise x) s
  | eff_unhandled r : effect s r Unhandled s
  | eff_read r a : credentials_of r = None → effect s r (Ok a) s
  | eff_register user a us :
      effect s (Req_register user) (Ok a) (with_users_db us s)
  | eff_create post cred d :
      pd_id d = post_counter s + 1 →
      effect s (Req_create_post post cred)
        (Ok (Resp_post (mk_BlogPostResponse d 0 0)))
        {| users_db := users_db s;
           posts_db := OrderedDict.set (post_counter s + 1) d (posts_db s);
           likes_db := <[post_counter s + 1 := ∅]> (likes_db s);
           comments_db := <[post_counter s + 1 := []]> (comments_db s);
           post_counter := post_counter s + 1;
           comment_counter := comment_counter s |}
  | eff_update p upd cred d d' a :
      OrderedDict.get p (posts_db s) = Some d →
      pd_id d' = pd_id d →
      effect s (Req_update_post p upd cred) (Ok a)
        (with_posts_db (OrderedDict.set p d' (posts_db s)) s)
  | eff_delete p cred d a :
      OrderedDict.get p (posts_db s) = Some d →
      effect s (Req_delete_post p cred) (Ok a)
        {| users_db := users_db s;
           posts_db := OrderedDict.del p (posts_db s);
           likes_db := delete p (likes_db s);
           comments_db := delete p (comments_db s);
           post_counter := post_counter s;
           comment_counter := comment_counter s |}
  | eff_like p cred d X a :
      OrderedDict.get p (posts_db s) = Some d →
      effect s (Req_like_post p cred) (Ok a)
        (with_likes_db (<[p := X]> (likes_db s)) s)
  | eff_unlike p cred d X a :
      OrderedDict.get p (posts_db s) = Some d →
      effect s (Req_unlike_post p cred) (Ok a)
        (with_likes_db (<[p := X]> (likes_db s)) s)
  | eff_comment p c cred d cd :
      OrderedDict.get p (posts_db s) = Some d →
      cd_id cd = comment_counter s + 1 →
      effect s (Req_add_comment p c cred) (Ok (Resp_comment (mk_CommentResponse cd)))
        {| users_db := users_db s; posts_db := posts_db s; likes_db := likes_db s;
           comments_db := <[p := comments_of s p ++ [cd]]> (comments_db s);
           post_counter := post_counter s;
           comment_counter := comment_counter s + 1 |}.

(** A post id that is spent: no store has it and the counter has passed it. *)
Definition gone (p : Z) (s : db) : Prop :=
  OrderedDict.get p (posts_db s) = None ∧ likes_db s !! p = None ∧
  comments_db s !! p = None ∧ p ≤ post_counter s.

(** ** Concrete runs used in the closed examples *)

Module Demo.
Definition alice : User :=
  {| u_username := "alice"; u_email := "a@x.com"; u_password := "pw1" |}.
Definition bob : User :=
  {| u_username := "bob"; u_email := "b@x.com"; u_password := "pw2" |}.
(** A registration whose three fields are all the empty string. *)
Definition nobody : User :=
  {| u_username := EmptyString; u_email := EmptyString; u_password := EmptyString |}.
Definition hello : BlogPost :=
  {| bp_title := "hello"; bp_content := "world"; bp_author := None;
     bp_valid := eq_refl |}.
Definition nice : Comment := {| cm_content := "nice!"; cm_valid := eq_refl |}.

(** A password made of one NUL byte, which the hasher refuses. *)
Definition nul_password : string := String Ascii.zero EmptyString.

(** alice and bob register; alice publishes two posts within the same
    microsecond; bob likes and comments the first. *)
Definition session : list (env * request) :=
  [ (Toy.env0 1, Req_register alice);
    (Toy.env0 1, Req_register bob);
    (Toy.env0 3, Req_create_post hello "alice");
    (Toy.env0 3, Req_create_post hello "alice");
    (Toy.env0 4, Req_like_post 1 "bob");
    (Toy.env0 5, Req_add_comment 1 nice "bob") ].

Definition state : db := (Toy.run session init_db).2.

(** The end-to-end walk of the specification: register, log in, publish,
    like twice, comment, read, delete, read again. *)
Definition walk : list (env * request) :=
  [ (Toy.env0 1, Req_register alice);
    (Toy.env0 1, Req_register bob);
    (Toy.env0 2, Req_login {| ul_username := "alice"; ul_password := "pw1" |});
    (Toy.env0 3, Req_create_post hello "alice");
    (Toy.env0 4, Req_like_post 1 "bob");
    (Toy.env0 5, Req_like_post 1 "bob");
    (Toy.env0 6, Req_add_comment 1 nice "bob");
    (Toy.env0 7, Req_get_post 1);
    (Toy.env0 8, Req_delete_post 1 "alice");
    (Toy.env0 9, Req_get_post 1) ].

(** The first post as it is stored in [state]. *)
Definition first_post : post_data :=
  {| pd_id := 1; pd_title := "hello"; pd_content := "world";
     pd_author := "alice"; pd_created_at := 3; pd_updated_at := 3 |}.

(** alice then retitles her first post and leaves its content alone. *)
Definition retitle : BlogPostUpdate :=
  {| bu_title := Some "hi"; bu_content := None; bu_valid := eq_refl |}.

Definition state_after_retitle : db :=
  (Toy.run (session ++ [(Toy.env0 7, Req_update_post 1 retitle "alice")]) init_db).2.

Definition retitled : BlogPostResponse :=
  {| id := 1; title := "hi"; content := "world"; author := "alice";
     created_at := 3; updated_at := 7; likes_count := 1; comments_count := 1 |}.
End Demo.

(** ** Notions used by the further properties *)

(** The store after one served request, write by write: either the store
    as it was, or the exact result of the one successful handler. *)
Inductive transition (e : env) (s : db) : request → db → Prop :=
  | tr_same r : transition e s r s
  | tr_register user hashed :
      users_db s !! u_username user = None →
      transition e s (Req_register user)
        (with_users_db
           (<[u_username user :=
                {| ud_username := u_username user; ud_email := u_email user;
                   ud_hashed_password := hashed |}]> (users_db s)) s)
  | tr_create post cred u :
      is_Some (users_db s !! u) →
      transition e s (Req_create_post post cred)
        {| users_db := users_db s;
           posts_db :=
             OrderedDict.set (post_counter s + 1)
               {| pd_id := post_counter s + 1; pd_title := bp_title post;
                  pd_content := bp_content post; pd_author := u;
                  pd_created_at := utcnow e; pd_updated_at := utcnow e |}
               (posts_db s);
           likes_db := <[post_counter s + 1 := ∅]> (likes_db s);
           comments_db := <[post_counter s + 1 := []]> (comments_db s);
           post_counter := post_counter s + 1;
           comment_counter := comment_counter s |}
  | tr_update p upd cred d :
      OrderedDict.get p (posts_db s) = Some d →
      transition e s (Req_update_post p upd cred)
        (with_posts_db (OrderedDict.set p (patched e upd d) (posts_db s)) s)
  | tr_delete p cred d :
      OrderedDict.get p (posts_db s) = Some d →
      transition e s (Req_delete_post p cred)
        {| users_db := users_db s;
           posts_db := OrderedDict.del p (posts_db s);
           likes_db := delete p (likes_db s);
           comments_db := delete p (comments_db s);
           post_counter := post_counter s;
           comment_counter := comment_counter s |}
  | tr_like p cred u d :
      is_Some (users_db s !! u) →
      OrderedDict.get p (posts_db s) = Some d →
      transition e s (Req_like_post p cred)
        (with_likes_db (<[p := likes_of s p ∪ {[u]}]> (likes_db s)) s)
  | tr_unlike p cred u d :
      OrderedDict.get p (posts_db s) = Some d →
      transition e s (Req_unlike_post p cred)
        (with_likes_db (<[p := likes_of s p ∖ {[u]}]> (likes_db s)) s)
  | tr_comment p c cred u d :
      is_Some (users_db s !! u) →
      OrderedDict.get p (posts_db s) = Some d →
      transition e s (Req_add_comment p c cred)
        {| users_db := users_db s; posts_db := posts_db s; likes_db := likes_db s;
           comments_db :=
             <[p := comments_of s p ++
                    [{| cd_id := comment_counter s + 1; cd_content := cm_content c;
                        cd_author := u; cd_post_id := p;
                        cd_created_at := utcnow e |}]]> (comments_db s);
           post_counter := post_counter s;
           comment_counter := comment_counter s + 1 |}.

(** Referential integrity of the stores: ids start at 1, every author,
    liker and commenter is a registered user, each comment list is in
    increasing id order under the post it names, and a comment id occurs
    under one post only. *)
Record integrity (s : db) : Prop := {
  int_counters : 0 ≤ post_counter s ∧ 0 ≤ comment_counter s;
  int_keys : Forall (λ kv : Z * post_data, 1 ≤ kv.1) (posts_db s);
  int_authors :
    Forall (λ kv : Z * post_data, is_Some (users_db s !! pd_author kv.2))
      (posts_db s);
  int_likers :
    ∀ p X u, likes_db s !! p = Some X → u ∈ X → is_Some (users_db s !! u);
  int_comments :
    ∀ p cs, comments_db s !! p = Some cs →
      StronglySorted Z.lt (cd_id <$> cs) ∧
      Forall (λ c, cd_post_id c = p ∧ 1 ≤ cd_id c ≤ comment_counter s ∧
                   is_Some (users_db s !! cd_author c)) cs;
  int_comment_ids :
    ∀ p q cs cs' c c',
      comments_db s !! p = Some cs → comments_db s !! q = Some cs' →
      c ∈ cs → c' ∈ cs' → cd_id c = cd_id c' → p = q
}.

(** The [Field] bounds of the models, as they show in the stores: titles of
    1 to 200 characters, non-empty contents, comments of 1 to 1000. *)
Record within_field_bounds (s : db) : Prop := {
  bounds_posts :
    Forall (λ kv : Z * post_data,
              field_ok title_field (pd_title kv.2) = true ∧
              field_ok content_field (pd_content kv.2) = true) (posts_db s);
  bounds_comments :
    ∀ p cs, comments_db s !! p = Some cs →
      Forall (λ c, field_ok comment_field (cd_content c) = true) cs
}.

(** The read-only endpoints, and [login]. *)
Definition read_only (r : request) : bool :=
  match r with
  | Req_login _ | Req_get_all_posts | Req_get_post _ | Req_get_comments _
  | Req_health_check => true
  | _ => false
  end.

(** * Facts about the building blocks *)

(** ** Ordered dictionaries *)

Section ordered_dict_facts.
Context {V : Type}.
Implicit Types (d : list (Z * V)) (k : Z) (v : V).
Import OrderedDict.

Lemma get_None k d : get k d = None ↔ k ∉ keys d.
Proof.
  unfold keys. induction d as [|[k' v'] d IH]; simpl.
  - split; [intros _; apply not_elem_of_nil | done].
  - rewrite not_elem_of_cons. destruct (decide (k = k')) as [->|Hne].
    + split; [done | by intros [? _]].
    + rewrite IH. split; [by split | by intros [_ ?]].
Qed.

Lemma get_Some_elem k v d : get k d = Some v → (k, v) ∈ d.
Proof.
  induction d as [|[k' v'] d IH]; simpl; [done|].
  destruct (decide (k = k')) as [->|]; intros H.
  - injection H as ->. left.
  - right. auto.
Qed.

Lemma get_Some_key k v d : get k d = Some v → k ∈ keys d.
Proof.
  intros H. apply dec_stable. intros Hn. apply get_None in Hn. congruence.
Qed.

Lemma elem_get k v d : NoDup (keys d) → (k, v) ∈ d → get k d = Some v.
Proof.
  unfold keys. induction d as [|[k' v'] d IH]; simpl; intros Hnd Hin.
  - by apply elem_of_nil in Hin.
  - apply NoDup_cons in Hnd as [Hk' Hnd].
    apply elem_of_cons in Hin as [Heq|Hin].
    + injection Heq as -> ->. by rewrite decide_True.
    + destruct (decide (k = k')) as [->|]; [|auto].
      exfalso. apply Hk'. apply list_elem_of_fmap. by exists (k', v).
Qed.

Lemma get_set k k' v d :
  get k' (set k v d) = if decide (k' = k) then Some v else get k' d.
Proof.
  induction d as [|[k0 v0] d IH]; simpl.
  - by destruct (decide (k' = k)).
  - destruct (decide (k = k0)) as [->|]; simpl.
    + by destruct (decide (k' = k0)).
    + rewrite IH. destruct (decide (k' = k0)) as [->|]; [|done].
      by rewrite decide_False.
Qed.

Lemma get_del k k' d :
  get k' (del k d) = if decide (k' = k) then None else get k' d.
Proof.
  induction d as [|[k0 v0] d IH]; simpl.
  - by destruct (decide (k' = k)).
  - destruct (decide (k = k0)) as [->|]; simpl.
    + rewrite IH. destruct (decide (k' = k0)); done.
    + rewrite IH. destruct (decide (k' = k0)) as [->|]; [|done].
      by rewrite decide_False.
Qed.

(** Assigning to a key that is present leaves the iteration order alone. *)
Lemma keys_set_present k v d : k ∈ keys d → keys (set k v d) = keys d.
Proof.
  unfold keys. induction d as [|[k0 v0] d IH]; simpl; intros Hin.
  - by apply elem_of_nil in Hin.
  - destruct (decide (k = k0)) as [->|Hne]; simpl; [done|].
    f_equal. apply IH. apply elem_of_cons in Hin as [|]; done.
Qed.

(** Assigning to a new key appends it. *)
Lemma set_absent k v d : k ∉ keys d → set k v d = d ++ [(k, v)].
Proof.
  unfold keys. induction d as [|[k0 v0] d IH]; simpl; intros Hin; [done|].
  apply not_elem_of_cons in Hin as [Hne Hin].
  rewrite decide_False by done. f_equal. auto.
Qed.

Lemma keys_del k d : keys (del k d) = filter (λ k', k' ≠ k) (keys d).
Proof.
  unfold keys. induction d as [|[k0 v0] d IH]; simpl; [done|].
  destruct (decide (k = k0)) as [->|Hne].
  - rewrite filter_cons_False by (simpl; auto). done.
  - rewrite filter_cons_True by (simpl; auto). simpl. by f_equal.
Qed.

Lemma Forall_set (P : Z * V → Prop) k v d :
  P (k, v) → Forall P d → Forall P (set k v d).
Proof.
  intros Hkv. induction 1 as [|[k0 v0] d H0 Hd IH]; simpl.
  - by constructor.
  - destruct (decide (k = k0)); by constructor.
Qed.

Lemma Forall_del (P : Z * V → Prop) k d : Forall P d → Forall P (del k d).
Proof.
  induction 1 as [|[k0 v0] d H0 Hd IH]; simpl; [done|].
  destruct (decide (k = k0)); [done|by constructor].
Qed.
End ordered_dict_facts.

(** ** [sorted] *)

Section python_sorted_facts.
Context {A : Type} (key : A → Z).
Implicit Types (l : list A) (x : A).

Lemma insert_by_key_Permutation x l : insert_by_key key x l ≡ₚ x :: l.
Proof.
  induction l as [|y l IH]; simpl; [done|].
  destruct (decide (key x ≤ key y)); [done|].
  rewrite IH. apply Permutation_swap.
Qed.

Lemma stable_sort_Permutation l : stable_sort key l ≡ₚ l.
Proof.
  induction l as [|x l IH]; simpl; [done|].
  by rewrite insert_by_key_Permutation, IH.
Qed.

Lemma sorted_Permutation rev l : sorted key rev l ≡ₚ l.
Proof.
  destruct rev; simpl; [|apply stable_sort_Permutation].
  by rewrite reverse_Permutation, stable_sort_Permutation, reverse_Permutation.
Qed.

(** [before] records which element stood earlier in the input.  The output
    of the ascending sort has its keys in order, and elements with the same
    key keep their input order. *)
Section stability.
Context (before : relation A).

Lemma insert_by_key_sorted x l :
  Forall (before x) l →
  StronglySorted (key_then key before) l →
  StronglySorted (key_then key before) (insert_by_key key x l).
Proof.
  intros Hx Hl. induction Hl as [|y l Hl IH Hy]; simpl.
  - repeat constructor.
  - apply Forall_cons in Hx as [Hxy Hx].
    destruct (decide (key x ≤ key y)) as [Hle|Hgt].
    + constructor; [by constructor|].
      constructor; [by split|].
      apply Forall_forall. intros z Hz.
      destruct (proj1 (Forall_forall _ _) Hy z Hz) as [Hyz _].
      split; [lia|]. intros _. exact (proj1 (Forall_forall _ _) Hx z Hz).
    + constructor; [by apply IH|].
      rewrite insert_by_key_Permutation. constructor; [|done].
      split; lia.
Qed.

Lemma stable_sort_sorted l :
  StronglySorted before l → StronglySorted (key_then key before) (stable_sort key l).
Proof.
  induction 1 as [|x l Hl IH Hx]; simpl; [constructor|].
  apply insert_by_key_sorted; [|done].
  by rewrite stable_sort_Permutation.
Qed.
End stability.

Lemma StronglySorted_weaken (R1 R2 : relation A) l :
  (∀ a b, R1 a b → R2 a b) → StronglySorted R1 l → StronglySorted R2 l.
Proof.
  intros HR. induction 1 as [|x l Hl IH Hx]; constructor; [done|].
  eapply Forall_impl; [exact Hx|]. intros b. apply HR.
Qed.

Lemma StronglySorted_reverse (R : relation A) l :
  StronglySorted R l → StronglySorted (flip R) (reverse l).
Proof.
  induction 1 as [|x l Hl IH Hx]; [constructor|].
  rewrite reverse_cons. apply StronglySorted_app_2; [|done|repeat constructor].
  intros a b Ha ->%list_elem_of_singleton.
  rewrite elem_of_reverse in Ha. unfold flip.
  by eapply Forall_forall in Hx.
Qed.

(** [sorted(l, key, reverse=True)]: keys descending, equal keys in input order. *)
Lemma sorted_reverse_stable (before : relation A) l :
  StronglySorted before l →
  StronglySorted (λ a b, key b ≤ key a ∧ (key a = key b → before a b))
    (sorted key true l).
Proof.
  intros Hl. simpl.
  apply StronglySorted_reverse in Hl.
  apply (stable_sort_sorted (flip before)) in Hl.
  apply StronglySorted_reverse in Hl.
  eapply StronglySorted_weaken; [|exact Hl].
  intros a b [Hle Htie]. split; [done|]. intros Heq. by apply Htie.
Qed.
End python_sorted_facts.

(** * Properties of the handlers *)

Ltac unfold_monad :=
  unfold fmapM, bind, ret, raise, unhandled, read, write in *; simpl in *.

Ltac unfold_auth := unfold get_current_user, decode_access_token.

Ltac unfold_handler :=
  unfold register, login, create_post, get_all_posts, get_post, update_post,
    delete_post, like_post, unlike_post, add_comment, get_comments, health_check,
    hash_password, verify_password.

Section properties.
Context (pwd_hash : string → string → option string)
        (pwd_verify : string → string → option bool)
        (jwt_encode : jwt_payload → string → string → string)
        (jwt_decode : string → string → list string → Z → option jwt_payload).

Local Abbreviation get_current_user := (get_current_user jwt_decode).
Local Abbreviation register := (register pwd_hash).
Local Abbreviation login := (login pwd_verify jwt_encode).
Local Abbreviation create_post := (create_post jwt_decode).
Local Abbreviation update_post := (update_post jwt_decode).
Local Abbreviation delete_post := (delete_post jwt_decode).
Local Abbreviation like_post := (like_post jwt_decode).
Local Abbreviation unlike_post := (unlike_post jwt_decode).
Local Abbreviation add_comment := (add_comment jwt_decode).
Local Abbreviation handle := (handle pwd_hash pwd_verify jwt_encode jwt_decode).
Local Abbreviation run := (run pwd_hash pwd_verify jwt_encode jwt_decode).
Local Abbreviation reachable := (reachable pwd_hash pwd_verify jwt_encode jwt_decode).

Implicit Types (s : db) (e : env) (r : request) (p : Z) (u cred : string).

Lemma fmapM_eq {A B} (f : A → B) (c : M A) s :
  fmapM f c s =
    (match (c s).1 with
     | Ok a => Ok (f a)
     | Raise x => Raise x
     | Unhandled => Unhandled
     end, (c s).2).
Proof. unfold fmapM, bind, ret. by destruct (c s) as [[a|x|] s']. Qed.

Lemma fmapM_snd {A B} (f : A → B) (c : M A) s : (fmapM f c s).2 = (c s).2.
Proof. by rewrite fmapM_eq. Qed.

(** ** Authentication reads the stores and never writes them *)

Lemma get_current_user_cases e cred s :
  (∃ u, get_current_user e cred s = (Ok u, s) ∧ is_Some (users_db s !! u)) ∨
  (∃ x, get_current_user e cred s = (Raise x, s) ∧
        status_code x = HTTP_401_UNAUTHORIZED).
Proof.
  unfold_auth. unfold_monad.
  destruct (jwt_decode cred SECRET_KEY [ALGORITHM] (jwt_clock e)) as [pl|]; simpl;
    [destruct (sub pl) as [u|]; simpl|].
  - destruct (users_db s !! u) eqn:Hu; simpl.
    + left. exists u. by rewrite Hu.
    + right. eauto.
  - right. eauto.
  - right. eauto.
Qed.

Lemma get_current_user_Ok e cred s u :
  (get_current_user e cred s).1 = Ok u →
  get_current_user e cred s = (Ok u, s) ∧ is_Some (users_db s !! u).
Proof.
  destruct (get_current_user_cases e cred s) as [(u' & -> & Hu)|(x & -> & _)];
    simpl; [|done].
  by intros [= ->].
Qed.

Lemma get_current_user_Raise e cred s x :
  (get_current_user e cred s).1 = Raise x →
  get_current_user e cred s = (Raise x, s) ∧
  status_code x = HTTP_401_UNAUTHORIZED.
Proof.
  destruct (get_current_user_cases e cred s) as [(u' & -> & Hu)|(x' & -> & Hx)];
    simpl; [done|].
  by intros [= ->].
Qed.
(** ** The shape of the stores is kept by every request *)

Lemma wf_init : wf init_db.
Proof.
  split; simpl; [constructor|constructor| |]; by rewrite dom_empty_L.
Qed.

Lemma wf_key_bound s p :
  wf s → p ∈ OrderedDict.keys (posts_db s) → p ≤ post_counter s.
Proof.
  intros Hwf Hp. unfold OrderedDict.keys in Hp.
  apply list_elem_of_fmap in Hp as ([k d] & -> & Hin).
  by destruct (proj1 (Forall_forall _ _) (wf_entries s Hwf) _ Hin).
Qed.

Lemma wf_get_id s p d :
  wf s → OrderedDict.get p (posts_db s) = Some d →
  pd_id d = p ∧ p ≤ post_counter s ∧ p ∈ OrderedDict.keys (posts_db s).
Proof.
  intros Hwf Hget. pose proof (get_Some_elem _ _ _ Hget) as Hin.
  destruct (proj1 (Forall_forall _ _) (wf_entries s Hwf) _ Hin) as [? ?].
  split_and!; [done|done|by eapply get_Some_key].
Qed.

Lemma wf_fresh s :
  wf s → post_counter s + 1 ∉ OrderedDict.keys (posts_db s).
Proof. intros Hwf Hin. apply (wf_key_bound _ _ Hwf) in Hin. lia. Qed.

Lemma StronglySorted_filter {A} (R : relation A) (P : A → Prop)
    `{!∀ x, Decision (P x)} (l : list A) :
  StronglySorted R l → StronglySorted R (filter P l).
Proof.
  induction 1 as [|x l Hl IH Hx]; [constructor|].
  destruct (decide (P x)).
  - rewrite filter_cons_True by done. constructor; [done|].
    apply Forall_forall. intros y [_ Hy]%list_elem_of_filter.
    by eapply Forall_forall in Hx.
  - by rewrite filter_cons_False.
Qed.

Lemma list_to_set_filter_ne (p : Z) (l : list Z) :
  list_to_set (filter (λ k, k ≠ p) l) =@{gset Z} list_to_set l ∖ {[p]}.
Proof.
  apply set_eq. intros k.
  rewrite elem_of_difference, !elem_of_list_to_set, list_elem_of_filter,
    elem_of_singleton.
  tauto.
Qed.

Lemma wf_create s d :
  wf s → pd_id d = post_counter s + 1 →
  wf {| users_db := users_db s;
        posts_db := OrderedDict.set (post_counter s + 1) d (posts_db s);
        likes_db := <[post_counter s + 1 := ∅]> (likes_db s);
        comments_db := <[post_counter s + 1 := []]> (comments_db s);
        post_counter := post_counter s + 1;
        comment_counter := comment_counter s |}.
Proof.
  intros Hwf Hid. pose proof (wf_fresh s Hwf) as Hfresh.
  rewrite set_absent by done.
  split; simpl; unfold OrderedDict.keys in *; rewrite ?fmap_app; simpl.
  - apply StronglySorted_app_2; [|apply Hwf|repeat constructor].
    intros k1 k2 Hk1 ->%list_elem_of_singleton.
    apply (wf_key_bound _ _ Hwf) in Hk1. lia.
  - apply Forall_app. split; [|by repeat constructor].
    eapply Forall_impl; [apply Hwf|]. simpl. intros kv [? ?]. split; [lia|done].
  - rewrite dom_insert_L, list_to_set_snoc_L, (wf_likes s Hwf).
    unfold OrderedDict.keys. set_solver.
  - rewrite dom_insert_L, list_to_set_snoc_L, (wf_comments s Hwf).
    unfold OrderedDict.keys. set_solver.
Qed.

Lemma wf_update s p d d' :
  wf s → OrderedDict.get p (posts_db s) = Some d → pd_id d' = pd_id d →
  wf (with_posts_db (OrderedDict.set p d' (posts_db s)) s).
Proof.
  intros Hwf Hget Hid. destruct (wf_get_id _ _ _ Hwf Hget) as (Hp & Hle & Hin).
  split; simpl; rewrite ?keys_set_present by done; try apply Hwf.
  apply Forall_set; [|apply Hwf]. simpl. split; [done|congruence].
Qed.

Lemma wf_delete s p :
  wf s →
  wf {| users_db := users_db s;
        posts_db := OrderedDict.del p (posts_db s);
        likes_db := delete p (likes_db s);
        comments_db := delete p (comments_db s);
        post_counter := post_counter s;
        comment_counter := comment_counter s |}.
Proof.
  intros Hwf. split; simpl; rewrite ?keys_del.
  - apply StronglySorted_filter, Hwf.
  - apply Forall_del, Hwf.
  - by rewrite dom_delete_L, list_to_set_filter_ne, (wf_likes s Hwf).
  - by rewrite dom_delete_L, list_to_set_filter_ne, (wf_comments s Hwf).
Qed.

Lemma wf_set_likes s p X :
  wf s → p ∈ OrderedDict.keys (posts_db s) →
  wf (with_likes_db (<[p := X]> (likes_db s)) s).
Proof.
  intros Hwf Hin. split; simpl; try apply Hwf.
  rewrite dom_insert_L, (wf_likes s Hwf). set_solver.
Qed.

Lemma wf_set_comments s p cs n :
  wf s → p ∈ OrderedDict.keys (posts_db s) →
  wf {| users_db := users_db s; posts_db := posts_db s; likes_db := likes_db s;
        comments_db := <[p := cs]> (comments_db s);
        post_counter := post_counter s; comment_counter := n |}.
Proof.
  intros Hwf Hin. split; simpl; try apply Hwf.
  rewrite dom_insert_L, (wf_comments s Hwf). set_solver.
Qed.

Lemma wf_with_users_db s us : wf s → wf (with_users_db us s).
Proof. intros Hwf. split; simpl; apply Hwf. Qed.

(** In a well-shaped store the defensive branches of [delete_post],
    [like_post] and [add_comment] are never taken. *)
Lemma wf_likes_present s p d :
  wf s → OrderedDict.get p (posts_db s) = Some d → is_Some (likes_db s !! p).
Proof.
  intros Hwf Hget. apply elem_of_dom. rewrite (wf_likes s Hwf).
  apply elem_of_list_to_set. by eapply get_Some_key.
Qed.

Lemma wf_comments_present s p d :
  wf s → OrderedDict.get p (posts_db s) = Some d → is_Some (comments_db s !! p).
Proof.
  intros Hwf Hget. apply elem_of_dom. rewrite (wf_comments s Hwf).
  apply elem_of_list_to_set. by eapply get_Some_key.
Qed.

(** What each handler does once the caller is authenticated. *)

Lemma create_post_Ok e post cred s u :
  get_current_user e cred s = (Ok u, s) →
  let d := {| pd_id := post_counter s + 1; pd_title := bp_title post;
              pd_content := bp_content post; pd_author := u;
              pd_created_at := utcnow e; pd_updated_at := utcnow e |} in
  create_post e post cred s =
    (Ok (mk_BlogPostResponse d 0 0),
     {| users_db := users_db s;
        posts_db := OrderedDict.set (post_counter s + 1) d (posts_db s);
        likes_db := <[post_counter s + 1 := ∅]> (likes_db s);
        comments_db := <[post_counter s + 1 := []]> (comments_db s);
        post_counter := post_counter s + 1;
        comment_counter := comment_counter s |}).
Proof. intros Hu. unfold_handler. unfold_monad. by rewrite Hu. Qed.

Lemma delete_post_Ok e p cred s u d :
  get_current_user e cred s = (Ok u, s) →
  OrderedDict.get p (posts_db s) = Some d →
  pd_author d = u →
  delete_post e p cred s =
    (Ok "Post deleted successfully",
     {| users_db := users_db s;
        posts_db := OrderedDict.del p (posts_db s);
        likes_db := delete p (likes_db s);
        comments_db := delete p (comments_db s);
        post_counter := post_counter s;
        comment_counter := comment_counter s |}).
Proof.
  intros Hu Hget Hauth. unfold_handler. unfold_monad.
  rewrite Hu, Hget. rewrite decide_False by (intros Hne; by apply Hne).
  simpl.
  destruct (likes_db s !! p) eqn:Hl; simpl;
    destruct (comments_db s !! p) eqn:Hc; simpl;
    unfold with_posts_db, with_likes_db, with_comments_db; simpl;
    rewrite ?(delete_id _ _ Hl), ?(delete_id _ _ Hc); done.
Qed.

Lemma update_post_Ok e p upd cred s u d :
  get_current_user e cred s = (Ok u, s) →
  OrderedDict.get p (posts_db s) = Some d →
  pd_author d = u →
  update_post e p upd cred s =
    (Ok (mk_BlogPostResponse (patched e upd d)
           (len_set (likes_of s p)) (len_list (comments_of s p))),
     with_posts_db (OrderedDict.set p (patched e upd d) (posts_db s)) s).
Proof.
  intros Hu Hget Hauth. unfold_handler. unfold_monad.
  rewrite Hu, Hget. rewrite decide_False by (intros Hne; by apply Hne).
  simpl. unfold patched. by destruct (bu_title upd), (bu_content upd).
Qed.

Lemma like_post_Ok e p cred s u d :
  get_current_user e cred s = (Ok u, s) →
  OrderedDict.get p (posts_db s) = Some d →
  u ∉ likes_of s p →
  like_post e p cred s =
    (Ok {| message := "Post liked successfully";
           lr_likes_count := len_set (likes_of s p ∪ {[u]}) |},
     with_likes_db (<[p := likes_of s p ∪ {[u]}]> (likes_db s)) s).
Proof.
  intros Hu Hget Hnotin. unfold_handler. unfold_monad.
  rewrite Hu, Hget. unfold likes_of in *.
  destruct (likes_db s !! p) as [X|] eqn:Hl; simpl in *.
  - rewrite Hl. simpl. rewrite decide_False by done. simpl.
    by rewrite lookup_insert_eq, Hl.
  - rewrite lookup_insert_eq. simpl. rewrite decide_False by done. simpl.
    rewrite !lookup_insert_eq. simpl. unfold with_likes_db. simpl.
    by rewrite insert_insert_eq.
Qed.

Lemma like_post_conflict e p cred s u d :
  get_current_user e cred s = (Ok u, s) →
  OrderedDict.get p (posts_db s) = Some d →
  u ∈ likes_of s p →
  like_post e p cred s =
    (Raise {| status_code := HTTP_400_BAD_REQUEST;
              detail := "You have already liked this post" |}, s).
Proof.
  intros Hu Hget Hin. unfold_handler. unfold_monad.
  rewrite Hu, Hget. unfold likes_of in *.
  destruct (likes_db s !! p) as [X|] eqn:Hl; simpl in *.
  - rewrite Hl. simpl. by rewrite decide_True.
  - by apply not_elem_of_empty in Hin.
Qed.

Lemma unlike_post_Ok e p cred s u d :
  get_current_user e cred s = (Ok u, s) →
  OrderedDict.get p (posts_db s) = Some d →
  u ∈ likes_of s p →
  unlike_post e p cred s =
    (Ok {| message := "Post unliked successfully";
           lr_likes_count := len_set (likes_of s p ∖ {[u]}) |},
     with_likes_db (<[p := likes_of s p ∖ {[u]}]> (likes_db s)) s).
Proof.
  intros Hu Hget Hin. unfold_handler. unfold_monad.
  rewrite Hu, Hget. unfold likes_of in *.
  destruct (likes_db s !! p) as [X|] eqn:Hl; simpl in *.
  - rewrite bool_decide_false by (intros Hn; by apply Hn). simpl.
    by rewrite lookup_insert_eq, Hl.
  - by apply not_elem_of_empty in Hin.
Qed.

Lemma unlike_post_conflict e p cred s u d :
  get_current_user e cred s = (Ok u, s) →
  OrderedDict.get p (posts_db s) = Some d →
  u ∉ likes_of s p →
  unlike_post e p cred s =
    (Raise {| status_code := HTTP_400_BAD_REQUEST;
              detail := "You haven't liked this post" |}, s).
Proof.
  intros Hu Hget Hnotin. unfold_handler. unfold_monad.
  rewrite Hu, Hget. unfold likes_of in *.
  destruct (likes_db s !! p) as [X|] eqn:Hl; simpl in *; [|done].
  by rewrite bool_decide_true.
Qed.

Lemma add_comment_Ok e p c cred s u d :
  get_current_user e cred s = (Ok u, s) →
  OrderedDict.get p (posts_db s) = Some d →
  let cd := {| cd_id := comment_counter s + 1; cd_content := cm_content c;
               cd_author := u; cd_post_id := p; cd_created_at := utcnow e |} in
  add_comment e p c cred s =
    (Ok (mk_CommentResponse cd),
     {| users_db := users_db s; posts_db := posts_db s; likes_db := likes_db s;
        comments_db := <[p := comments_of s p ++ [cd]]> (comments_db s);
        post_counter := post_counter s;
        comment_counter := comment_counter s + 1 |}).
Proof.
  intros Hu Hget. unfold_handler. unfold_monad.
  rewrite Hu, Hget. unfold comments_of.
  destruct (comments_db s !! p) as [cs|] eqn:Hc; simpl.
  - by rewrite Hc.
  - rewrite lookup_insert_eq. simpl. unfold with_comments_db. simpl.
    by rewrite insert_insert_eq.
Qed.

(** A request whose caller fails authentication, or whose target post is
    missing, is answered with the error and writes nothing. *)
Lemma handle_unauthenticated e r cred s x :
  credentials_of r = Some cred →
  get_current_user e cred s = (Raise x, s) →
  handle e r s = (Raise x, s).
Proof.
  intros Hc Hx. destruct r; simplify_eq/=;
    unfold_handler;
    unfold_monad; by rewrite Hx.
Qed.

Lemma handle_missing_target e r cred p s u :
  credentials_of r = Some cred →
  target_of r = Some p →
  get_current_user e cred s = (Ok u, s) →
  OrderedDict.get p (posts_db s) = None →
  handle e r s = (Raise post_not_found, s).
Proof.
  intros Hc Ht Hu Hget. destruct r; simplify_eq/=;
    unfold_handler;
    unfold_monad; by rewrite Hu, Hget.
Qed.

Lemma handle_not_author e r cred p s u d :
  credentials_of r = Some cred →
  target_of r = Some p →
  owner_only r = true →
  get_current_user e cred s = (Ok u, s) →
  OrderedDict.get p (posts_db s) = Some d →
  pd_author d ≠ u →
  ∃ x, status_code x = HTTP_403_FORBIDDEN ∧ handle e r s = (Raise x, s).
Proof.
  intros Hc Ht Ho Hu Hget Hne. destruct r; simplify_eq/=;
    unfold_handler;
    unfold_monad; rewrite Hu, Hget; rewrite decide_True by done;
    simpl; (eexists; split; [|reflexivity]; reflexivity).
Qed.

(** [register]: the three ways it can go. *)
Lemma register_cases e user s :
  (is_Some (users_db s !! u_username user) ∧
   register e user s =
     (Raise {| status_code := HTTP_400_BAD_REQUEST;
               detail := "Username already registered" |}, s)) ∨
  (users_db s !! u_username user = None ∧
   pwd_hash (salt e) (u_password user) = None ∧
   register e user s = (Unhandled, s)) ∨
  (∃ hashed,
     users_db s !! u_username user = None ∧
     pwd_hash (salt e) (u_password user) = Some hashed ∧
     register e user s =
       (Ok {| ur_username := u_username user; ur_email := u_email user |},
        with_users_db
          (<[u_username user :=
               {| ud_username := u_username user; ud_email := u_email user;
                  ud_hashed_password := hashed |}]> (users_db s)) s)).
Proof.
  unfold_handler. unfold_monad.
  destruct (users_db s !! u_username user) as [ud|] eqn:Hu; simpl.
  - left. split; [by eexists|done].
  - destruct (pwd_hash (salt e) (u_password user)) as [hashed|] eqn:Hh; simpl.
    + right. right. by exists hashed.
    + right. left. done.
Qed.

(** The read-only endpoints and [login] return the store they were given. *)
Lemma handle_read_only e r s :
  match r with
  | Req_login _ | Req_get_all_posts | Req_get_post _ | Req_get_comments _
  | Req_health_check => (handle e r s).2 = s
  | _ => True
  end.
Proof.
  destruct r; try done; simpl; unfold_handler; unfold_monad.
  - destruct (users_db s !! ul_username user_login); simpl; [|done].
    by destruct (pwd_verify _ _) as [[|]|].
  - by destruct (OrderedDict.get post_id (posts_db s)).
  - by destruct (OrderedDict.get post_id (posts_db s)).
Qed.

Lemma handle_wf e r s : wf s → wf (handle e r s).2.
Proof.
  intros Hwf.
  destruct (credentials_of r) as [cred|] eqn:Hcred.
  - destruct (get_current_user_cases e cred s) as [(u & Hu & _)|(x & Hx & _)];
      [|by rewrite (handle_unauthenticated _ _ _ _ _ Hcred Hx)].
    destruct (target_of r) as [p|] eqn:Htgt.
    + destruct (OrderedDict.get p (posts_db s)) as [d|] eqn:Hget;
        [|by rewrite (handle_missing_target _ _ _ _ _ _ Hcred Htgt Hu Hget)].
      destruct (wf_get_id _ _ _ Hwf Hget) as (Hid & Hle & Hin).
      destruct r; simplify_eq/=; rewrite fmapM_snd.
      * destruct (decide (pd_author d = u)) as [Ha|Ha].
        -- rewrite (update_post_Ok _ _ _ _ _ _ _ Hu Hget Ha). simpl.
           by eapply wf_update.
        -- unfold_handler. unfold_monad. rewrite Hu, Hget.
           by rewrite decide_True.
      * destruct (decide (pd_author d = u)) as [Ha|Ha].
        -- rewrite (delete_post_Ok _ _ _ _ _ _ Hu Hget Ha). simpl.
           by apply wf_delete.
        -- unfold_handler. unfold_monad. rewrite Hu, Hget.
           by rewrite decide_True.
      * destruct (decide (u ∈ likes_of s (pd_id d))) as [Hl|Hl].
        -- by rewrite (like_post_conflict _ _ _ _ _ _ Hu Hget Hl).
        -- rewrite (like_post_Ok _ _ _ _ _ _ Hu Hget Hl). simpl.
           by apply wf_set_likes.
      * destruct (decide (u ∈ likes_of s (pd_id d))) as [Hl|Hl].
        -- rewrite (unlike_post_Ok _ _ _ _ _ _ Hu Hget Hl). simpl.
           by apply wf_set_likes.
        -- by rewrite (unlike_post_conflict _ _ _ _ _ _ Hu Hget Hl).
      * rewrite (add_comment_Ok _ _ _ _ _ _ _ Hu Hget). simpl.
        by apply wf_set_comments.
    + destruct r; simplify_eq/=. rewrite fmapM_snd.
      rewrite (create_post_Ok _ _ _ _ _ Hu). simpl. by apply wf_create.
  - pose proof (handle_read_only e r s) as Hro.
    destruct r; simplify_eq/=; rewrite ?Hro; try done.
    rewrite fmapM_snd.
    destruct (register_cases e user s)
      as [[_ ->]|[(_ & _ & ->)|(hashed & _ & _ & ->)]]; simpl; [done|done|].
    by apply wf_with_users_db.
Qed.

Lemma reachable_wf s : reachable s → wf s.
Proof. induction 1; [apply wf_init|by apply handle_wf]. Qed.

Lemma reachable_run reqs s : reachable s → reachable (run reqs s).2.
Proof.
  revert s. induction reqs as [|[e r] reqs IH]; intros s Hs; simpl; [done|].
  pose proof (reachable_step _ _ _ _ s e r Hs) as Hs1.
  destruct (handle e r s) as [out s1]. simpl in Hs1.
  specialize (IH s1 Hs1). by destruct (run reqs s1).
Qed.

(** ** One request, one write *)

Lemma handle_effect e r s : effect s r (handle e r s).1 (handle e r s).2.
Proof.
  destruct (credentials_of r) as [cred|] eqn:Hcred.
  - destruct (get_current_user_cases e cred s) as [(u & Hu & _)|(x & Hx & _)];
      [|rewrite (handle_unauthenticated _ _ _ _ _ Hcred Hx); constructor].
    destruct (target_of r) as [p|] eqn:Htgt.
    + destruct (OrderedDict.get p (posts_db s)) as [d|] eqn:Hget;
        [|rewrite (handle_missing_target _ _ _ _ _ _ Hcred Htgt Hu Hget);
          constructor].
      destruct r; simplify_eq/=; rewrite fmapM_eq.
      * destruct (decide (pd_author d = u)) as [Ha|Ha].
        -- rewrite (update_post_Ok _ _ _ _ _ _ _ Hu Hget Ha). simpl.
           by econstructor.
        -- destruct (handle_not_author e (Req_update_post p post_update cred)
                       cred p s u d) as (x & _ & Hx); try done.
           simpl in Hx. rewrite fmapM_eq in Hx.
           destruct (update_post e p post_update cred s) as [[?|?|] ?];
             simplify_eq/=. constructor.
      * destruct (decide (pd_author d = u)) as [Ha|Ha].
        -- rewrite (delete_post_Ok _ _ _ _ _ _ Hu Hget Ha). simpl.
           by econstructor.
        -- destruct (handle_not_author e (Req_delete_post p cred)
                       cred p s u d) as (x & _ & Hx); try done.
           simpl in Hx. rewrite fmapM_eq in Hx.
           destruct (delete_post e p cred s) as [[?|?|] ?];
             simplify_eq/=. constructor.
      * destruct (decide (u ∈ likes_of s p)) as [Hl|Hl].
        -- rewrite (like_post_conflict _ _ _ _ _ _ Hu Hget Hl). constructor.
        -- rewrite (like_post_Ok _ _ _ _ _ _ Hu Hget Hl). simpl.
           by econstructor.
      * destruct (decide (u ∈ likes_of s p)) as [Hl|Hl].
        -- rewrite (unlike_post_Ok _ _ _ _ _ _ Hu Hget Hl). simpl.
           by econstructor.
        -- rewrite (unlike_post_conflict _ _ _ _ _ _ Hu Hget Hl). constructor.
      * rewrite (add_comment_Ok _ _ _ _ _ _ _ Hu Hget). simpl.
        by econstructor.
    + destruct r; simplify_eq/=. rewrite fmapM_eq.
      rewrite (create_post_Ok _ _ _ _ _ Hu). simpl. by constructor.
  - destruct r; simplify_eq/=;
      try (match goal with
           | |- effect _ ?r ?o ?s' =>
               replace s' with s by (symmetry; exact (handle_read_only e r s));
               destruct o; by constructor
           end).
    rewrite fmapM_eq.
    destruct (register_cases e user s)
      as [[_ ->]|[(_ & _ & ->)|(hashed & _ & _ & ->)]]; simpl; constructor.
Qed.

(** ** Listing the posts *)

Lemma get_all_posts_eq s :
  get_all_posts s =
    (Ok (sorted created_at true
           ((λ '(post_id, post_data),
               mk_BlogPostResponse post_data (len_set (likes_of s post_id))
                 (len_list (comments_of s post_id))) <$> posts_db s)), s).
Proof. reflexivity. Qed.

Lemma responses_in_id_order (g h : Z → Z) (d : list (Z * post_data)) :
  StronglySorted Z.lt (OrderedDict.keys d) →
  Forall (λ kv : Z * post_data, pd_id kv.2 = kv.1) d →
  StronglySorted (λ a b, id a < id b)
    ((λ '(k, pd), mk_BlogPostResponse pd (g k) (h k)) <$> d).
Proof.
  unfold OrderedDict.keys.
  induction d as [|[k pd] d IH]; simpl; intros Hs Hf; [constructor|].
  apply StronglySorted_cons in Hs as [Hk Hs].
  apply Forall_cons in Hf as [Hid Hf]. simpl in Hid.
  constructor; [by apply IH|].
  apply Forall_forall. intros b ([k' pd'] & -> & Hin)%list_elem_of_fmap. simpl.
  pose proof (proj1 (Forall_forall _ _) Hf _ Hin) as Hid'. simpl in Hid'.
  assert (k < k') as Hlt.
  { apply (proj1 (Forall_forall _ _) Hk). apply list_elem_of_fmap.
    by exists (k', pd'). }
  lia.
Qed.

Lemma responses_ids (g h : Z → Z) (d : list (Z * post_data)) :
  Forall (λ kv : Z * post_data, pd_id kv.2 = kv.1) d →
  id <$> ((λ '(k, pd), mk_BlogPostResponse pd (g k) (h k)) <$> d)
  = OrderedDict.keys d.
Proof.
  unfold OrderedDict.keys. induction d as [|[k pd] d IH]; intros Hf; simpl; [done|].
  apply Forall_cons in Hf as [Hid Hf]. simpl in Hid. f_equal; [done|by apply IH].
Qed.

Lemma wf_ids s :
  wf s → Forall (λ kv : Z * post_data, pd_id kv.2 = kv.1) (posts_db s).
Proof.
  intros Hwf. eapply Forall_impl; [apply (wf_entries s Hwf)|].
  by intros kv [_ ?].
Qed.

Lemma get_all_posts_wf s :
  wf s →
  ∃ l, get_all_posts s = (Ok l, s) ∧
       StronglySorted newest_first_ties_id_ascending l ∧
       id <$> l ≡ₚ OrderedDict.keys (posts_db s).
Proof.
  intros Hwf. eexists. split; [apply get_all_posts_eq|]. split.
  - apply (sorted_reverse_stable created_at (λ a b, id a < id b)).
    apply responses_in_id_order; [apply Hwf|by apply wf_ids].
  - rewrite sorted_Permutation. by rewrite responses_ids by by apply wf_ids.
Qed.

(** C1 (as amended). In every state the process can reach, [get_all_posts]
    answers with every stored post exactly once, ordered by [created_at]
    descending (newest first); two posts with the same [created_at] appear in
    insertion order, that is, by increasing id. *)
Theorem get_all_posts_newest_first_then_insertion_order s :
  reachable s →
  ∃ l, get_all_posts s = (Ok l, s) ∧
       StronglySorted newest_first_ties_id_ascending l ∧
       id <$> l ≡ₚ OrderedDict.keys (posts_db s).
Proof.
  intros Hwf%reachable_wf.
  by apply get_all_posts_wf.
Qed.

(** ** Failed checks *)

(** C2. For each of the six mutating post endpoints (create, update, delete,
    like, unlike, add-comment) and every pre-state: a request that fails
    authentication is answered 401; an authenticated request aimed at a post
    that does not exist is answered 404; an authenticated update or delete by
    someone other than the author is answered 403; and in all three cases the
    six globals after the request are exactly the ones before it. *)
Theorem failed_checks_raise_and_write_nothing e r cred s :
  credentials_of r = Some cred →
  (∀ x, (get_current_user e cred s).1 = Raise x →
        status_code x = HTTP_401_UNAUTHORIZED ∧ handle e r s = (Raise x, s)) ∧
  (∀ u p, (get_current_user e cred s).1 = Ok u →
        target_of r = Some p →
        OrderedDict.get p (posts_db s) = None →
        handle e r s = (Raise post_not_found, s) ∧
        status_code post_not_found = HTTP_404_NOT_FOUND) ∧
  (∀ u p d, (get_current_user e cred s).1 = Ok u →
        target_of r = Some p →
        owner_only r = true →
        OrderedDict.get p (posts_db s) = Some d →
        pd_author d ≠ u →
        ∃ x, status_code x = HTTP_403_FORBIDDEN ∧ handle e r s = (Raise x, s)).
Proof.
  intros Hcred. split_and!.
  - intros x [Hx H401]%get_current_user_Raise. split; [done|].
    by eapply handle_unauthenticated.
  - intros u p [Hu _]%get_current_user_Ok Htgt Hget. split; [|done].
    by eapply handle_missing_target.
  - intros u p d [Hu _]%get_current_user_Ok Htgt Hown Hget Hne.
    by eapply handle_not_author.
Qed.

(** ** Likes *)

(** C4. For an authenticated user [u]: when post [p] does not exist, both
    [like_post] and [unlike_post] answer 404; when it exists, [like_post]
    answers 400 and writes nothing if [u] is already in [p]'s like set, and
    otherwise adds [u] and returns the new cardinality (one more than before);
    [unlike_post] answers 400 and writes nothing if [u] is not in the set, and
    otherwise removes [u] and returns the new cardinality (one less). *)
Theorem like_unlike_contract e p cred s u :
  (get_current_user e cred s).1 = Ok u →
  (OrderedDict.get p (posts_db s) = None →
     like_post e p cred s = (Raise post_not_found, s) ∧
     unlike_post e p cred s = (Raise post_not_found, s)) ∧
  (is_Some (OrderedDict.get p (posts_db s)) →
     (u ∈ likes_of s p →
        like_post e p cred s =
          (Raise {| status_code := HTTP_400_BAD_REQUEST;
                    detail := "You have already liked this post" |}, s)) ∧
     (u ∉ likes_of s p →
        ∃ s', like_post e p cred s =
                (Ok {| message := "Post liked successfully";
                       lr_likes_count := len_set (likes_of s' p) |}, s') ∧
              likes_of s' p = likes_of s p ∪ {[u]} ∧
              len_set (likes_of s' p) = len_set (likes_of s p) + 1 ∧
              s' = with_likes_db (<[p := likes_of s p ∪ {[u]}]> (likes_db s)) s) ∧
     (u ∉ likes_of s p →
        unlike_post e p cred s =
          (Raise {| status_code := HTTP_400_BAD_REQUEST;
                    detail := "You haven't liked this post" |}, s)) ∧
     (u ∈ likes_of s p →
        ∃ s', unlike_post e p cred s =
                (Ok {| message := "Post unliked successfully";
                       lr_likes_count := len_set (likes_of s' p) |}, s') ∧
              likes_of s' p = likes_of s p ∖ {[u]} ∧
              len_set (likes_of s' p) = len_set (likes_of s p) - 1 ∧
              s' = with_likes_db (<[p := likes_of s p ∖ {[u]}]> (likes_db s)) s)).
Proof.
  intros [Hu _]%get_current_user_Ok. split.
  - intros Hget. split; unfold_handler; unfold_monad; by rewrite Hu, Hget.
  - intros [d Hget]. split_and!.
    + intros Hin. by eapply like_post_conflict.
    + intros Hnotin. eexists. split_and!; [|..|reflexivity].
      * erewrite like_post_Ok by done. do 3 f_equal.
        unfold likes_of at 2. simpl. by rewrite lookup_insert_eq.
      * unfold likes_of at 1. simpl. by rewrite lookup_insert_eq.
      * unfold likes_of at 1. simpl. rewrite lookup_insert_eq. simpl.
        unfold len_set. rewrite size_union by set_solver.
        rewrite size_singleton. lia.
    + intros Hnotin. by eapply unlike_post_conflict.
    + intros Hin. eexists. split_and!; [|..|reflexivity].
      * erewrite unlike_post_Ok by done. do 3 f_equal.
        unfold likes_of at 2. simpl. by rewrite lookup_insert_eq.
      * unfold likes_of at 1. simpl. by rewrite lookup_insert_eq.
      * unfold likes_of at 1. simpl. rewrite lookup_insert_eq. simpl.
        unfold len_set. rewrite size_difference by set_solver.
        rewrite size_singleton.
        assert (size (likes_of s p) ≠ 0%nat) as Hpos.
        { intros Hz%size_empty_inv. apply (not_elem_of_empty (C:=gset string) u).
          by apply Hz. }
        lia.
Qed.

(** ** Registration and login *)

Lemma login_cases e user_login s :
  (users_db s !! ul_username user_login = None ∧
   login e user_login s =
     (Raise {| status_code := HTTP_401_UNAUTHORIZED;
               detail := "Incorrect username or password" |}, s)) ∨
  (∃ ud, users_db s !! ul_username user_login = Some ud ∧
     match pwd_verify (ul_password user_login) (ud_hashed_password ud) with
     | Some true =>
         login e user_login s =
           (Ok {| access_token :=
                    create_access_token jwt_encode e (ul_username user_login)
                      (Some (timedelta_minutes ACCESS_TOKEN_EXPIRE_MINUTES));
                  token_type := "bearer" |}, s)
     | Some false =>
         login e user_login s =
           (Raise {| status_code := HTTP_401_UNAUTHORIZED;
                     detail := "Incorrect username or password" |}, s)
     | None => login e user_login s = (Unhandled, s)
     end).
Proof.
  unfold_handler. unfold_monad.
  destruct (users_db s !! ul_username user_login) as [ud|]; simpl; [|by left].
  right. exists ud. split; [done|].
  by destruct (pwd_verify _ _) as [[|]|].
Qed.

(** C5 (the code breaks it). [login] answers an unknown username and a
    password that [pwd_context.verify] rejects with the same 401, but it
    calls [pwd_context.verify] for a registered username only and does not
    catch what it raises.  A password the hasher raises on (passlib does for a
    NUL byte) is therefore answered by an unhandled exception when the
    username is registered and by the 401 when it is not: the two outcomes
    differ, and tell which usernames exist. *)
Theorem login_reveals_registered_username_when_verify_raises
    e known unknown password s ud :
  users_db s !! known = Some ud →
  users_db s !! unknown = None →
  pwd_verify password (ud_hashed_password ud) = None →
  login e {| ul_username := known; ul_password := password |} s = (Unhandled, s) ∧
  login e {| ul_username := unknown; ul_password := password |} s =
    (Raise {| status_code := HTTP_401_UNAUTHORIZED;
              detail := "Incorrect username or password" |}, s).
Proof.
  intros Hknown Hunknown Hraises. split.
  - destruct (login_cases e {| ul_username := known; ul_password := password |} s)
      as [[Hnone _]|(ud' & Hud' & Hlogin)]; simpl in *; [congruence|].
    assert (ud' = ud) as -> by congruence. by rewrite Hraises in Hlogin.
  - destruct (login_cases e {| ul_username := unknown; ul_password := password |} s)
      as [[_ Hlogin]|(ud' & Hud' & _)]; simpl in *; [done|congruence].
Qed.

(** C9 (as amended). [register] answers the duplicate-username error (400,
    store untouched) exactly when the username is already a key of
    [users_db].  The [User] model constrains none of its three fields, so any
    strings (empty ones included) pass validation; and for a free username
    the user is stored and echoed back whenever [pwd_context.hash] returns a
    hash for the password. *)
Theorem register_answers_400_iff_username_taken e user s :
  User_valid user = true ∧
  ((∃ x s', register e user s = (Raise x, s')) ↔
     is_Some (users_db s !! u_username user)) ∧
  (is_Some (users_db s !! u_username user) →
     register e user s =
       (Raise {| status_code := HTTP_400_BAD_REQUEST;
                 detail := "Username already registered" |}, s)) ∧
  (∀ hashed,
     users_db s !! u_username user = None →
     pwd_hash (salt e) (u_password user) = Some hashed →
     register e user s =
       (Ok {| ur_username := u_username user; ur_email := u_email user |},
        with_users_db
          (<[u_username user :=
               {| ud_username := u_username user; ud_email := u_email user;
                  ud_hashed_password := hashed |}]> (users_db s)) s)).
Proof.
  split; [done|].
  destruct (register_cases e user s)
    as [[Htaken Hreg]|[(Hfree & Hnone & Hreg)|(hashed & Hfree & Hsome & Hreg)]];
    rewrite Hreg.
  - split_and!.
    + split; [done|]. intros _. by do 2 eexists.
    + done.
    + intros hashed Hfree. destruct Htaken as [ud Hud]. congruence.
  - split_and!.
    + split; [by intros (x & s' & ?)|]. intros [ud Hud]. congruence.
    + intros [ud Hud]. congruence.
    + intros hashed _ Hsome. congruence.
  - split_and!.
    + split; [by intros (x & s' & ?)|]. intros [ud Hud]. congruence.
    + intros [ud Hud]. congruence.
    + intros hashed' _ Hsome'. by simplify_eq.
Qed.

(** ** Editing a post *)

Lemma update_post_inv e p upd cred s b s' :
  update_post e p upd cred s = (Ok b, s') →
  ∃ u d, get_current_user e cred s = (Ok u, s) ∧
         OrderedDict.get p (posts_db s) = Some d ∧ pd_author d = u.
Proof.
  intros Hupd.
  destruct (get_current_user_cases e cred s) as [(u & Hu & _)|(x & Hx & _)].
  - destruct (OrderedDict.get p (posts_db s)) as [d|] eqn:Hget.
    + destruct (decide (pd_author d = u)) as [Ha|Ha]; [by eauto|].
      revert Hupd. unfold_handler. unfold_monad. rewrite Hu, Hget.
      by rewrite decide_True.
    + revert Hupd. unfold_handler. unfold_monad. by rewrite Hu, Hget.
  - revert Hupd. unfold_handler. unfold_monad. by rewrite Hx.
Qed.

(** C6. After a successful [update_post] of post [p]: a field the patch omits
    keeps its value and a field it carries is overwritten; ["id"], ["author"]
    and ["created_at"] are unchanged; ["updated_at"] is the current time, also
    for an empty patch; every other post, the iteration order of [posts_db],
    and the users, likes, comments and both counters are unchanged. *)
Theorem update_post_frame e p upd cred s b s' :
  update_post e p upd cred s = (Ok b, s') →
  ∃ d d',
    OrderedDict.get p (posts_db s) = Some d ∧
    OrderedDict.get p (posts_db s') = Some d' ∧
    pd_title d' = default (pd_title d) (bu_title upd) ∧
    pd_content d' = default (pd_content d) (bu_content upd) ∧
    pd_id d' = pd_id d ∧
    pd_author d' = pd_author d ∧
    pd_created_at d' = pd_created_at d ∧
    pd_updated_at d' = utcnow e ∧
    (∀ q, q ≠ p →
       OrderedDict.get q (posts_db s') = OrderedDict.get q (posts_db s)) ∧
    OrderedDict.keys (posts_db s') = OrderedDict.keys (posts_db s) ∧
    users_db s' = users_db s ∧ likes_db s' = likes_db s ∧
    comments_db s' = comments_db s ∧
    post_counter s' = post_counter s ∧ comment_counter s' = comment_counter s ∧
    b = mk_BlogPostResponse d' (len_set (likes_of s p)) (len_list (comments_of s p)).
Proof.
  intros Hupd. destruct (update_post_inv _ _ _ _ _ _ _ Hupd) as (u & d & Hu & Hget & Ha).
  rewrite (update_post_Ok _ _ _ _ _ _ _ Hu Hget Ha) in Hupd.
  injection Hupd as <- <-.
  exists d, (patched e upd d). simpl. split_and!; try done.
  - rewrite get_set. by rewrite decide_True.
  - intros q Hq. rewrite get_set. by rewrite decide_False.
  - apply keys_set_present. by eapply get_Some_key.
Qed.

(** ** Identifiers *)

Lemma effect_counters s r out s' :
  effect s r out s' →
  (post_counter s ≤ post_counter s' ∧
   ∀ i, assigned_post_id r out = Some i → post_counter s < i ≤ post_counter s') ∧
  (comment_counter s ≤ comment_counter s' ∧
   ∀ i, assigned_comment_id r out = Some i →
        comment_counter s < i ≤ comment_counter s').
Proof.
  destruct 1 as [r x|r|r a Hc| | post cred d Hid| | | | |p c cred d cd Hget Hid];
    simpl; (split; (split; [lia|])); try done.
  - by destruct r.
  - by destruct r.
  - by destruct r.
  - by destruct r.
  - by destruct r.
  - by destruct r.
  - intros i [= <-]. lia.
  - intros i [= <-]. lia.
Qed.

Section counter.
Context (ctr : db → Z) (f : request → result response → option Z).
Context (Hstep : ∀ s r out s', effect s r out s' →
           ctr s ≤ ctr s' ∧ ∀ i, f r out = Some i → ctr s < i ≤ ctr s').

Lemma assigned_run_increasing reqs s :
  ctr s ≤ ctr (run reqs s).2 ∧
  Forall (λ i, ctr s < i ≤ ctr (run reqs s).2) (assigned f reqs (run reqs s).1) ∧
  StronglySorted Z.lt (assigned f reqs (run reqs s).1).
Proof.
  revert s. induction reqs as [|[e r] reqs IH]; intros s; simpl.
  - split_and!; [lia|constructor|constructor].
  - destruct (Hstep _ _ _ _ (handle_effect e r s)) as [Hle Hnew].
    destruct (handle e r s) as [out s1]. simpl in *.
    destruct (IH s1) as (Hle1 & Hall & Hsorted).
    destruct (run reqs s1) as [outs s2]. simpl in *.
    assert (Forall (λ i, ctr s < i ≤ ctr s2) (assigned f reqs outs)) as Hall'.
    { eapply Forall_impl; [exact Hall|]. simpl. lia. }
    destruct (f r out) as [i|]; [|split_and!; [lia|done|done]].
    specialize (Hnew i eq_refl).
    split_and!; [lia| |].
    + constructor; [lia|done].
    + constructor; [done|].
      eapply Forall_impl; [exact Hall|]. simpl. lia.
Qed.
End counter.

Lemma StronglySorted_lt_NoDup (l : list Z) : StronglySorted Z.lt l → NoDup l.
Proof.
  induction 1 as [|x l Hl IH Hx]; constructor; [|done].
  intros Hin. apply (proj1 (Forall_forall _ _) Hx) in Hin. lia.
Qed.

(** C7. Along any sequence of requests served from process start, the post
    ids handed out by successful [create_post] calls are strictly increasing
    in the order of the calls, and so are the comment ids handed out by
    successful [add_comment] calls, whatever posts they are attached to and
    whatever was deleted in between; in particular no id is handed out twice. *)
Theorem ids_strictly_increasing_never_reused reqs :
  let outs := (run reqs init_db).1 in
  StronglySorted Z.lt (assigned assigned_post_id reqs outs) ∧
  NoDup (assigned assigned_post_id reqs outs) ∧
  StronglySorted Z.lt (assigned assigned_comment_id reqs outs) ∧
  NoDup (assigned assigned_comment_id reqs outs).
Proof.
  simpl.
  destruct (assigned_run_increasing post_counter assigned_post_id
              (λ s r out s' H, proj1 (effect_counters s r out s' H)) reqs init_db)
    as (_ & _ & Hposts).
  destruct (assigned_run_increasing comment_counter assigned_comment_id
              (λ s r out s' H, proj2 (effect_counters s r out s' H)) reqs init_db)
    as (_ & _ & Hcomments).
  split_and!; auto using StronglySorted_lt_NoDup.
Qed.

(** ** Deleting a post *)

Lemma effect_gone p s r out s' : effect s r out s' → gone p s → gone p s'.
Proof.
  intros Heff (Hp & Hl & Hc & Hle).
  destruct Heff as [| | | |post cred d Hid|q upd cred d d' a Hq|q cred d a Hq
                    |q cred d X a Hq|q cred d X a Hq|q c cred d cd Hq Hid];
    unfold gone; simpl; try done.
  - rewrite get_set, !lookup_insert_ne, decide_False by lia.
    split_and!; [done..|lia].
  - rewrite get_set, decide_False by congruence. done.
  - rewrite get_del. rewrite !lookup_delete.
    destruct (decide (p = q)) as [->|]; [congruence|].
    rewrite !decide_False by done. done.
  - rewrite lookup_insert_ne by congruence. done.
  - rewrite lookup_insert_ne by congruence. done.
  - rewrite lookup_insert_ne by congruence. done.
Qed.

Lemma run_gone p reqs s : gone p s → gone p (run reqs s).2.
Proof.
  revert s. induction reqs as [|[e r] reqs IH]; intros s Hs; simpl; [done|].
  pose proof (effect_gone p _ _ _ _ (handle_effect e r s) Hs) as Hs1.
  destruct (handle e r s) as [out s1]. simpl in Hs1.
  specialize (IH s1 Hs1). by destruct (run reqs s1).
Qed.

(** C3. When the author of an existing post [p] deletes it, the post, its
    like set and its comment list leave the stores together; from then on,
    whatever requests are served next, [get_post p] and [get_comments p]
    answer 404, [like_post] and [unlike_post] on [p] answer 404 to any
    authenticated caller, and no element of [get_all_posts] has id [p]. *)
Theorem delete_post_cascade e p cred s u d :
  reachable s →
  (get_current_user e cred s).1 = Ok u →
  OrderedDict.get p (posts_db s) = Some d →
  pd_author d = u →
  ∃ s', delete_post e p cred s = (Ok "Post deleted successfully", s') ∧
    ∀ reqs,
      let s'' := (run reqs s').2 in
      OrderedDict.get p (posts_db s'') = None ∧
      likes_db s'' !! p = None ∧
      comments_db s'' !! p = None ∧
      get_post p s'' = (Raise post_not_found, s'') ∧
      get_comments p s'' = (Raise post_not_found, s'') ∧
      (∀ e' cred' u', (get_current_user e' cred' s'').1 = Ok u' →
         like_post e' p cred' s'' = (Raise post_not_found, s'') ∧
         unlike_post e' p cred' s'' = (Raise post_not_found, s'')) ∧
      (∃ l, get_all_posts s'' = (Ok l, s'') ∧ p ∉ id <$> l).
Proof.
  intros Hreach [Hu _]%get_current_user_Ok Hget Hauth.
  pose proof (reachable_wf _ Hreach) as Hwf.
  destruct (wf_get_id _ _ _ Hwf Hget) as (_ & Hle & _).
  eexists. split; [by eapply delete_post_Ok|].
  intros reqs s''.
  assert (reachable s'') as Hreach''.
  { apply reachable_run.
    pose proof (reachable_step _ _ _ _ s e (Req_delete_post p cred) Hreach) as H.
    simpl in H. rewrite fmapM_snd in H.
    by rewrite (delete_post_Ok _ _ _ _ _ _ Hu Hget Hauth) in H. }
  assert (gone p s'') as (Hp & Hl & Hc & _).
  { apply run_gone. unfold gone. simpl.
    rewrite get_del, decide_True, !lookup_delete_eq by done. done. }
  split_and!; try done.
  - unfold_handler. unfold_monad. by rewrite Hp.
  - unfold_handler. unfold_monad. by rewrite Hp.
  - intros e' cred' u' [Hu' _]%get_current_user_Ok.
    split; unfold_handler; unfold_monad; by rewrite Hu', Hp.
  - destruct (get_all_posts_wf s''
                (reachable_wf _ Hreach'')) as (l & Hl' & _ & Hperm).
    exists l. split; [done|]. rewrite Hperm. by apply get_None.
Qed.

(** ** Counts *)

(** C8. In every reachable state, [get_post p] on an existing post answers
    with [likes_count] equal to the cardinality of the set stored under
    [likes_db[p]] and [comments_count] equal to the length of the list stored
    under [comments_db[p]]; the same holds of every element of
    [get_all_posts], which has one element for each existing post. *)
Theorem counts_match_stores s :
  reachable s →
  (∀ p d, OrderedDict.get p (posts_db s) = Some d →
     ∃ X cs, likes_db s !! p = Some X ∧ comments_db s !! p = Some cs ∧
       get_post p s =
         (Ok (mk_BlogPostResponse d (Z.of_nat (size X)) (Z.of_nat (length cs))),
          s)) ∧
  ∃ l, get_all_posts s = (Ok l, s) ∧
    (∀ b, b ∈ l →
       ∃ d X cs, OrderedDict.get (id b) (posts_db s) = Some d ∧
         likes_db s !! id b = Some X ∧ comments_db s !! id b = Some cs ∧
         b = mk_BlogPostResponse d (Z.of_nat (size X)) (Z.of_nat (length cs))) ∧
    (∀ p, is_Some (OrderedDict.get p (posts_db s)) → p ∈ id <$> l).
Proof.
  intros Hwf%reachable_wf.
  assert (∀ p d, OrderedDict.get p (posts_db s) = Some d →
            ∃ X cs, likes_db s !! p = Some X ∧ comments_db s !! p = Some cs ∧
              mk_BlogPostResponse d (len_set (likes_of s p))
                (len_list (comments_of s p)) =
              mk_BlogPostResponse d (Z.of_nat (size X)) (Z.of_nat (length cs)))
    as Hcounts.
  { intros p d Hget.
    destruct (wf_likes_present _ _ _ Hwf Hget) as [X HX].
    destruct (wf_comments_present _ _ _ Hwf Hget) as [cs Hcs].
    exists X, cs. unfold likes_of, comments_of. by rewrite HX, Hcs. }
  split.
  - intros p d Hget. destruct (Hcounts p d Hget) as (X & cs & HX & Hcs & Heq).
    exists X, cs. split_and!; [done..|].
    unfold_handler. unfold_monad. by rewrite Hget, Heq.
  - destruct (get_all_posts_wf s Hwf)
      as (l & Hl & _ & Hperm).
    exists l. split; [done|]. split.
    + intros b Hb.
      assert (l ≡ₚ (λ '(k, pd), mk_BlogPostResponse pd (len_set (likes_of s k))
                                  (len_list (comments_of s k))) <$> posts_db s)
        as Hpl.
      { rewrite get_all_posts_eq in Hl. injection Hl as <-.
        apply (sorted_Permutation created_at true). }
      rewrite Hpl in Hb.
      apply list_elem_of_fmap in Hb as ([k pd] & -> & Hin). simpl.
      pose proof (proj1 (Forall_forall _ _) (wf_ids _ Hwf) _ Hin) as Hid.
      simpl in Hid. rewrite Hid.
      assert (OrderedDict.get k (posts_db s) = Some pd) as Hget.
      { apply elem_get; [|done].
        apply StronglySorted_lt_NoDup, Hwf. }
      destruct (Hcounts k pd Hget) as (X & cs & HX & Hcs & Heq).
      by exists pd, X, cs.
    + intros p [d Hget]. rewrite Hperm. by eapply get_Some_key.
Qed.

(** ** Keys of the like and comment stores *)

Lemma effect_keys s r out s' :
  wf s → effect s r out s' →
  match r, out with
  | Req_create_post _ _, Ok (Resp_post b) =>
      (id b ∉ OrderedDict.keys (posts_db s)) ∧
      OrderedDict.keys (posts_db s') = OrderedDict.keys (posts_db s) ++ [id b] ∧
      likes_db s' = <[id b := ∅]> (likes_db s) ∧
      comments_db s' = <[id b := []]> (comments_db s)
  | Req_delete_post p _, Ok _ =>
      OrderedDict.keys (posts_db s') =
        filter (λ k, k ≠ p) (OrderedDict.keys (posts_db s)) ∧
      likes_db s' = delete p (likes_db s) ∧
      comments_db s' = delete p (comments_db s)
  | _, _ =>
      OrderedDict.keys (posts_db s') = OrderedDict.keys (posts_db s) ∧
      dom (likes_db s') = dom (likes_db s) ∧
      dom (comments_db s') = dom (comments_db s)
  end.
Proof.
  intros Hwf Heff.
  destruct Heff as [r x|r|r a Hc|user a us|post cred d Hid|q upd cred d d' a Hq
                    |q cred d a Hq|q cred d X a Hq|q cred d X a Hq
                    |q c cred d cd Hq Hid]; simpl.
  - by destruct r.
  - by destruct r.
  - destruct r; simplify_eq/=; done.
  - done.
  - rewrite Hid. pose proof (wf_fresh s Hwf) as Hfresh.
    split_and!; [done| |done|done].
    rewrite set_absent by done. unfold OrderedDict.keys. by rewrite fmap_app.
  - split_and!; [|done|done]. apply keys_set_present. by eapply get_Some_key.
  - split_and!; [|done|done]. apply keys_del.
  - split_and!; [done| |done]. rewrite dom_insert_L.
    pose proof (wf_likes_present _ _ _ Hwf Hq) as Hin%elem_of_dom. set_solver.
  - split_and!; [done| |done]. rewrite dom_insert_L.
    pose proof (wf_likes_present _ _ _ Hwf Hq) as Hin%elem_of_dom. set_solver.
  - split_and!; [done|done|]. rewrite dom_insert_L.
    pose proof (wf_comments_present _ _ _ Hwf Hq) as Hin%elem_of_dom. set_solver.
Qed.

(** C10. In every reachable state the keys of [likes_db] and the keys of
    [comments_db] are exactly the ids of the stored posts.  A successful
    [create_post] appends its fresh id to [posts_db] and installs an empty set
    and an empty list under it; a successful [delete_post] removes the id from
    all three; every other request, and every failed one, leaves the three
    key sets as they were. *)
Theorem like_and_comment_keys_are_post_ids s :
  reachable s →
  dom (likes_db s) = list_to_set (OrderedDict.keys (posts_db s)) ∧
  dom (comments_db s) = list_to_set (OrderedDict.keys (posts_db s)) ∧
  ∀ e r,
    let out := (handle e r s).1 in
    let s' := (handle e r s).2 in
    match r, out with
    | Req_create_post _ _, Ok (Resp_post b) =>
        (id b ∉ OrderedDict.keys (posts_db s)) ∧
        OrderedDict.keys (posts_db s') = OrderedDict.keys (posts_db s) ++ [id b] ∧
        likes_db s' = <[id b := ∅]> (likes_db s) ∧
        comments_db s' = <[id b := []]> (comments_db s)
    | Req_delete_post p _, Ok _ =>
        OrderedDict.keys (posts_db s') =
          filter (λ k, k ≠ p) (OrderedDict.keys (posts_db s)) ∧
        likes_db s' = delete p (likes_db s) ∧
        comments_db s' = delete p (comments_db s)
    | _, _ =>
        OrderedDict.keys (posts_db s') = OrderedDict.keys (posts_db s) ∧
        dom (likes_db s') = dom (likes_db s) ∧
        dom (comments_db s') = dom (comments_db s)
    end.
Proof.
  intros Hwf%reachable_wf. split_and!; [apply Hwf|apply Hwf|].
  intros e r. apply effect_keys; [done|apply handle_effect].
Qed.

(** * Further properties *)

(** ** Validated bodies *)

Lemma field_ok_bounds (f : Field) (v : string) :
  field_ok f v = true →
  (∀ n, min_length f = Some n → (n ≤ String.length v)%nat) ∧
  (∀ n, max_length f = Some n → (String.length v ≤ n)%nat).
Proof.
  unfold field_ok. intros [Hmin Hmax]%andb_true_iff. split; intros n Hn.
  - rewrite Hn in Hmin. by apply bool_decide_eq_true in Hmin.
  - rewrite Hn in Hmax. by apply bool_decide_eq_true in Hmax.
Qed.

Lemma BlogPost_bounds (post : BlogPost) :
  field_ok title_field (bp_title post) = true ∧
  field_ok content_field (bp_content post) = true.
Proof. apply andb_true_iff, bp_valid. Qed.

Lemma title_bounds (v : string) :
  field_ok title_field v = true → (1 ≤ String.length v ≤ 200)%nat.
Proof.
  intros [Hmin Hmax]%field_ok_bounds.
  split; [by apply Hmin|by apply Hmax].
Qed.

Lemma content_bounds (v : string) :
  field_ok content_field v = true → (1 ≤ String.length v)%nat.
Proof. intros [Hmin _]%field_ok_bounds. by apply Hmin. Qed.

Lemma comment_bounds (v : string) :
  field_ok comment_field v = true → (1 ≤ String.length v ≤ 1000)%nat.
Proof.
  intros [Hmin Hmax]%field_ok_bounds.
  split; [by apply Hmin|by apply Hmax].
Qed.

Lemma patched_bounds e (upd : BlogPostUpdate) (d : post_data) :
  field_ok title_field (pd_title d) = true →
  field_ok content_field (pd_content d) = true →
  field_ok title_field (pd_title (patched e upd d)) = true ∧
  field_ok content_field (pd_content (patched e upd d)) = true.
Proof.
  intros Ht Hc. pose proof (bu_valid upd) as [Hut Huc]%andb_true_iff.
  simpl. by destruct (bu_title upd), (bu_content upd).
Qed.

(** ** The exact write of each request *)

Lemma handle_transition e r s : transition e s r (handle e r s).2.
Proof.
  destruct (credentials_of r) as [cred|] eqn:Hcred.
  - destruct (get_current_user_cases e cred s) as [(u & Hu & Hreg)|(x & Hx & _)];
      [|rewrite (handle_unauthenticated _ _ _ _ _ Hcred Hx); constructor].
    destruct (target_of r) as [p|] eqn:Htgt.
    + destruct (OrderedDict.get p (posts_db s)) as [d|] eqn:Hget;
        [|rewrite (handle_missing_target _ _ _ _ _ _ Hcred Htgt Hu Hget);
          constructor].
      destruct r; simplify_eq/=; rewrite fmapM_snd.
      * destruct (decide (pd_author d = u)) as [Ha|Ha].
        -- rewrite (update_post_Ok _ _ _ _ _ _ _ Hu Hget Ha). simpl.
           by constructor.
        -- unfold_handler. unfold_monad. rewrite Hu, Hget.
           rewrite decide_True by done. constructor.
      * destruct (decide (pd_author d = u)) as [Ha|Ha].
        -- rewrite (delete_post_Ok _ _ _ _ _ _ Hu Hget Ha). simpl.
           by econstructor.
        -- unfold_handler. unfold_monad. rewrite Hu, Hget.
           rewrite decide_True by done. constructor.
      * destruct (decide (u ∈ likes_of s p)) as [Hl|Hl].
        -- rewrite (like_post_conflict _ _ _ _ _ _ Hu Hget Hl). constructor.
        -- rewrite (like_post_Ok _ _ _ _ _ _ Hu Hget Hl). simpl.
           by econstructor.
      * destruct (decide (u ∈ likes_of s p)) as [Hl|Hl].
        -- rewrite (unlike_post_Ok _ _ _ _ _ _ Hu Hget Hl). simpl.
           by econstructor.
        -- rewrite (unlike_post_conflict _ _ _ _ _ _ Hu Hget Hl). constructor.
      * rewrite (add_comment_Ok _ _ _ _ _ _ _ Hu Hget). simpl.
        by econstructor.
    + destruct r; simplify_eq/=. rewrite fmapM_snd.
      rewrite (create_post_Ok _ _ _ _ _ Hu). simpl. by constructor.
  - destruct r; simplify_eq/=;
      try (match goal with
           | |- transition _ _ ?r ?s' =>
               replace s' with s by (symmetry; exact (handle_read_only e r s));
               constructor
           end).
    rewrite fmapM_snd.
    destruct (register_cases e user s)
      as [[_ ->]|[(_ & _ & ->)|(hashed & Hfree & _ & ->)]]; simpl; by constructor.
Qed.

(** ** Referential integrity *)

Lemma integrity_init : integrity init_db.
Proof.
  split; simpl; try done; try by constructor.
Qed.

Lemma is_Some_insert_fresh `{Countable K} {V} (m : gmap K V) k v k' :
  is_Some (m !! k') → is_Some (<[k := v]> m !! k').
Proof.
  intros Hk'. destruct (decide (k = k')) as [->|Hne].
  - rewrite lookup_insert_eq. by eexists.
  - by rewrite lookup_insert_ne.
Qed.

Lemma sorted_ids_inj (cs : list comment_data) c c' :
  StronglySorted Z.lt (cd_id <$> cs) → c ∈ cs → c' ∈ cs →
  cd_id c = cd_id c' → c = c'.
Proof.
  induction cs as [|c0 cs IH]; simpl; intros Hs Hc Hc' Heq.
  - by apply elem_of_nil in Hc.
  - apply StronglySorted_cons in Hs as [Hhd Hs].
    assert (∀ x, x ∈ cs → cd_id c0 < cd_id x) as Hlt.
    { intros x Hx. apply (proj1 (Forall_forall _ _) Hhd).
      by apply list_elem_of_fmap_2. }
    apply elem_of_cons in Hc as [->|Hc]; apply elem_of_cons in Hc' as [->|Hc'].
    + done.
    + specialize (Hlt _ Hc'). lia.
    + specialize (Hlt _ Hc). lia.
    + by apply IH.
Qed.

Lemma transition_integrity e s r s' :
  integrity s → transition e s r s' → integrity s'.
Proof.
  intros [[Hpc Hcc] Hkeys Hauth Hlikers Hcomm Huniq] Htr.
  destruct Htr as [r|user hashed Hfree|post cred u Hu|p upd cred d Hget
                   |p cred d Hget|p cred u d Hu Hget|p cred u d Hget
                   |p c cred u d Hu Hget].
  - by split.
  - split; simpl; try done.
    + eapply Forall_impl; [exact Hauth|]. simpl. intros kv.
      apply is_Some_insert_fresh.
    + intros p X u HX Hin. eapply is_Some_insert_fresh, Hlikers; done.
    + intros p cs Hcs. destruct (Hcomm p cs Hcs) as [Hs Hf]. split; [done|].
      eapply Forall_impl; [exact Hf|]. simpl. intros c (? & ? & ?).
      split_and!; [done|lia|lia|]. by apply is_Some_insert_fresh.
  - split; simpl.
    + lia.
    + apply Forall_set; [simpl; lia|done].
    + apply Forall_set; [done|done].
    + intros p X u'. rewrite lookup_insert.
      destruct (decide (post_counter s + 1 = p)) as [<-|Hne].
      * intros [= <-] Hin. by apply not_elem_of_empty in Hin.
      * apply Hlikers.
    + intros p cs. rewrite lookup_insert.
      destruct (decide (post_counter s + 1 = p)) as [<-|Hne].
      * intros [= <-]. split; constructor.
      * apply Hcomm.
    + intros p q cs cs' c c'. rewrite !lookup_insert.
      destruct (decide (post_counter s + 1 = p)) as [<-|Hp].
      { intros [= <-] _ Hin. by apply elem_of_nil in Hin. }
      destruct (decide (post_counter s + 1 = q)) as [<-|Hq].
      { intros _ [= <-] _ Hin. by apply elem_of_nil in Hin. }
      apply Huniq.
  - pose proof (get_Some_elem _ _ _ Hget) as Hin.
    split; simpl; try done.
    + apply Forall_set; [|done]. exact (proj1 (Forall_forall _ _) Hkeys _ Hin).
    + apply Forall_set; [|done]. exact (proj1 (Forall_forall _ _) Hauth _ Hin).
  - split; simpl; try done.
    + by apply Forall_del.
    + by apply Forall_del.
    + intros q X u. rewrite lookup_delete.
      destruct (decide (p = q)); [done|]. apply Hlikers.
    + intros q cs. rewrite lookup_delete.
      destruct (decide (p = q)); [done|]. apply Hcomm.
    + intros q1 q2 cs cs' c c'. rewrite !lookup_delete.
      destruct (decide (p = q1)); [done|]. destruct (decide (p = q2)); [done|].
      apply Huniq.
  - split; simpl; try done.
    intros q X u'. rewrite lookup_insert.
    destruct (decide (p = q)) as [->|Hne]; [|apply Hlikers].
    intros [= <-] [Hin| ->%elem_of_singleton]%elem_of_union; [|done].
    unfold likes_of in Hin. destruct (likes_db s !! q) as [X|] eqn:HX; simpl in Hin.
    + by eapply Hlikers.
    + by apply not_elem_of_empty in Hin.
  - split; simpl; try done.
    intros q X u'. rewrite lookup_insert.
    destruct (decide (p = q)) as [->|Hne]; [|apply Hlikers].
    intros [= <-] [Hin _]%elem_of_difference.
    unfold likes_of in Hin. destruct (likes_db s !! q) as [X|] eqn:HX; simpl in Hin.
    + by eapply Hlikers.
    + by apply not_elem_of_empty in Hin.
  - assert (StronglySorted Z.lt (cd_id <$> comments_of s p) ∧
            Forall (λ c, cd_post_id c = p ∧ 1 ≤ cd_id c ≤ comment_counter s ∧
                         is_Some (users_db s !! cd_author c)) (comments_of s p))
      as [Hs Hf].
    { unfold comments_of. destruct (comments_db s !! p) as [cs|] eqn:Hcs; simpl.
      - by apply Hcomm.
      - split; constructor. }
    assert (∀ q cs c0, comments_db s !! q = Some cs → c0 ∈ cs →
              cd_id c0 ≤ comment_counter s) as Hold.
    { intros q cs c0 Hcs Hin. destruct (Hcomm q cs Hcs) as [_ Hf'].
      pose proof (proj1 (Forall_forall _ _) Hf' _ Hin) as (_ & ? & _). lia. }
    assert (∀ c0, c0 ∈ comments_of s p → cd_id c0 ≤ comment_counter s) as Holdp.
    { intros c0 Hin. pose proof (proj1 (Forall_forall _ _) Hf _ Hin) as (_ & ? & _).
      lia. }
    split; simpl; try done.
    + lia.
    + intros q cs. rewrite lookup_insert.
      destruct (decide (p = q)) as [->|Hne].
      * intros [= <-]. split.
        -- rewrite fmap_app. apply StronglySorted_app_2; [|done|repeat constructor].
           intros i1 i2 (c1 & -> & Hc1)%list_elem_of_fmap ->%list_elem_of_singleton.
           specialize (Holdp _ Hc1). simpl. lia.
        -- apply Forall_app. split.
           ++ eapply Forall_impl; [exact Hf|]. simpl. intros c0 (? & ? & ?).
              split_and!; [done|lia|lia|done].
           ++ repeat constructor; simpl; [lia|lia|done].
      * intros Hcs. destruct (Hcomm q cs Hcs) as [Hs' Hf']. split; [done|].
        eapply Forall_impl; [exact Hf'|]. simpl. intros c0 (? & ? & ?).
        split_and!; [done|lia|lia|done].
    + intros q1 q2 cs cs' c1 c2. rewrite !lookup_insert.
      destruct (decide (p = q1)) as [<-|H1]; destruct (decide (p = q2)) as [<-|H2];
        try done.
      * intros [= <-] Hcs' [Hin| ->%list_elem_of_singleton]%elem_of_app Hin' Heq.
        -- unfold comments_of in Hin.
           destruct (comments_db s !! p) as [cs0|] eqn:Hcs0; simpl in Hin;
             [by eapply Huniq|by apply elem_of_nil in Hin].
        -- specialize (Hold _ _ _ Hcs' Hin'). simpl in Heq. lia.
      * intros Hcs [= <-] Hin [Hin'| ->%list_elem_of_singleton]%elem_of_app Heq.
        -- unfold comments_of in Hin'.
           destruct (comments_db s !! p) as [cs0|] eqn:Hcs0; simpl in Hin';
             [by eapply Huniq|by apply elem_of_nil in Hin'].
        -- specialize (Hold _ _ _ Hcs Hin). simpl in Heq. lia.
      * apply Huniq.
Qed.

Lemma reachable_integrity s : reachable s → integrity s.
Proof.
  induction 1 as [|s e r Hs IH]; [apply integrity_init|].
  eapply transition_integrity; [exact IH|apply handle_transition].
Qed.

(** ** Accounts and tokens *)

(** X1. [get_current_user] never writes the store.  It succeeds with [u]
    exactly when [jwt.decode] accepts the token with subject [u] and [u] is a
    key of [users_db]; every failure is an HTTP 401. *)
Theorem get_current_user_accepts_registered_subjects e cred s :
  (get_current_user e cred s).2 = s ∧
  (∀ u, (get_current_user e cred s).1 = Ok u ↔
        (∃ payload,
            jwt_decode cred SECRET_KEY [ALGORITHM] (jwt_clock e) = Some payload ∧
            sub payload = Some u) ∧
        is_Some (users_db s !! u)) ∧
  (∀ x, (get_current_user e cred s).1 = Raise x →
        status_code x = HTTP_401_UNAUTHORIZED).
Proof.
  unfold_auth. unfold_monad.
  destruct (jwt_decode cred SECRET_KEY [ALGORITHM] (jwt_clock e)) as [pl|]; simpl;
    [destruct (sub pl) as [u0|] eqn:Hsub; simpl|].
  - destruct (users_db s !! u0) as [ud|] eqn:Hu0; simpl.
    + split_and!; [done| |done]. intros u. split.
      * intros [= <-]. split; [by exists pl|by rewrite Hu0].
      * intros [(pl' & [= <-] & Hsub') _]. congruence.
    + split_and!; [done| |by intros x [= <-]]. intros u. split; [done|].
      intros [(pl' & [= <-] & Hsub') [ud Hud]]. congruence.
  - split_and!; [done| |by intros x [= <-]]. intros u. split; [done|].
    intros [(pl' & [= <-] & Hsub') _]. congruence.
  - split_and!; [done| |by intros x [= <-]]. intros u. split; [done|].
    by intros [(pl' & ? & _) _].
Qed.

(** X2. [login] succeeds exactly when the username is registered and
    [pwd_context.verify] accepts the password against the stored hash.  The
    token it returns is of type "bearer", encodes the username as subject and
    an expiry 30 minutes after the current time, and nothing is written. *)
Theorem login_issues_thirty_minute_bearer_token e user_login s :
  (∀ tok s', login e user_login s = (Ok tok, s') →
     s' = s ∧
     token_type tok = "bearer" ∧
     access_token tok =
       jwt_encode {| sub := Some (ul_username user_login);
                     exp := utcnow e + 30 * 60 * 1000000 |}
         SECRET_KEY ALGORITHM ∧
     ∃ ud, users_db s !! ul_username user_login = Some ud ∧
           pwd_verify (ul_password user_login) (ud_hashed_password ud)
             = Some true) ∧
  (∀ ud, users_db s !! ul_username user_login = Some ud →
     pwd_verify (ul_password user_login) (ud_hashed_password ud) = Some true →
     ∃ tok, login e user_login s = (Ok tok, s)).
Proof.
  destruct (login_cases e user_login s) as [[Hnone ->]|(ud & Hud & Hlogin)].
  - split; [done|]. intros ud Hud. congruence.
  - destruct (pwd_verify _ _) as [[|]|] eqn:Hv; rewrite Hlogin; split;
      try done; try (intros ud' Hud' Hv'; congruence).
    + intros tok s' [= <- <-]. split_and!; [done|done|done|by exists ud].
    + intros ud' _ _. by eexists.
Qed.

Lemma transition_users e s r s' u ud :
  transition e s r s' → users_db s !! u = Some ud → users_db s' !! u = Some ud.
Proof.
  destruct 1 as [|user hashed Hfree| | | | | |]; simpl; try done.
  intros Hu. rewrite lookup_insert_ne; [done|congruence].
Qed.

Lemma run_users reqs s u ud :
  users_db s !! u = Some ud → users_db (run reqs s).2 !! u = Some ud.
Proof.
  revert s. induction reqs as [|[e r] reqs IH]; intros s Hu; simpl; [done|].
  pose proof (transition_users _ _ _ _ _ _ (handle_transition e r s) Hu) as Hu1.
  destruct (handle e r s) as [out s1]. simpl in Hu1.
  specialize (IH s1 Hu1). by destruct (run reqs s1).
Qed.

(** X3. Accounts are permanent: a registered username stays registered, with
    the same email and the same password hash, whatever requests are served
    afterwards (no handler updates or removes an entry of [users_db]). *)
Theorem registered_users_are_permanent reqs s u ud :
  users_db s !! u = Some ud → users_db (run reqs s).2 !! u = Some ud.
Proof. apply run_users. Qed.

(** X4. Register, then log in.  If the username is free and
    [pwd_context.verify] accepts the password against the hash
    [pwd_context.hash] produced at registration, then after any further
    requests a login with that username and password succeeds. *)
Theorem register_then_login e user s e' reqs hashed :
  users_db s !! u_username user = None →
  pwd_hash (salt e) (u_password user) = Some hashed →
  pwd_verify (u_password user) hashed = Some true →
  ∃ resp s1, register e user s = (Ok resp, s1) ∧
    ∃ tok, login e'
             {| ul_username := u_username user; ul_password := u_password user |}
             (run reqs s1).2
           = (Ok tok, (run reqs s1).2).
Proof.
  intros Hfree Hhash Hverify. do 2 eexists. split.
  { unfold_handler. unfold_monad. by rewrite Hfree, Hhash. }
  simpl. eexists. unfold_handler. unfold_monad.
  erewrite run_users; last first.
  { simpl. apply lookup_insert_eq. }
  simpl. by rewrite Hverify.
Qed.

(** X5. Tokens are never revoked.  If [login] returned a token and
    [jwt.decode] accepts that token at some later moment with the subject
    [login] put into it, then [get_current_user] authenticates it as that
    user in every store reached from the one the login was served in. *)
Theorem login_token_authenticates_later e user_login s tok s' e' reqs payload :
  login e user_login s = (Ok tok, s') →
  jwt_decode (access_token tok) SECRET_KEY [ALGORITHM] (jwt_clock e') = Some payload →
  sub payload = Some (ul_username user_login) →
  get_current_user e' (access_token tok) (run reqs s').2
  = (Ok (ul_username user_login), (run reqs s').2).
Proof.
  intros Hlogin Hdecode Hsub.
  assert (s' = s ∧ ∃ ud, users_db s !! ul_username user_login = Some ud)
    as [-> [ud Hud]].
  { destruct (login_cases e user_login s) as [[_ Heq]|(ud & Hud & Heq)].
    - congruence.
    - destruct (pwd_verify _ _) as [[|]|]; rewrite Heq in Hlogin;
        simplify_eq. split; [done|by exists ud]. }
  unfold_auth. unfold_monad. rewrite Hdecode. simpl. rewrite Hsub. simpl.
  by rewrite (run_users reqs s _ _ Hud).
Qed.

(** ** Publishing and commenting *)

(** X6. An authenticated [create_post] given a body that is a [BlogPost]
    instance (title of 1 to 200 characters, non-empty content) always
    succeeds.  The new post takes
    the next id, its author is the authenticated user whatever the body's
    [author] field says, it is stamped [created_at = updated_at = now] and
    starts with zero likes and comments; [get_post] on the new id returns
    the very response [create_post] gave, its comment list is empty, and
    [get_post] on any other id answers as before. *)
Theorem create_post_then_get_post e post cred s u :
  (get_current_user e cred s).1 = Ok u →
  ∃ b s', create_post e post cred s = (Ok b, s') ∧
    id b = post_counter s + 1 ∧
    title b = bp_title post ∧ content b = bp_content post ∧
    (1 ≤ String.length (title b) ≤ 200)%nat ∧
    (1 ≤ String.length (content b))%nat ∧
    author b = u ∧
    created_at b = utcnow e ∧ updated_at b = utcnow e ∧
    likes_count b = 0 ∧ comments_count b = 0 ∧
    post_counter s' = post_counter s + 1 ∧
    comment_counter s' = comment_counter s ∧
    users_db s' = users_db s ∧
    get_post (id b) s' = (Ok b, s') ∧
    get_comments (id b) s' = (Ok [], s') ∧
    ∀ q, q ≠ id b → (get_post q s').1 = (get_post q s).1.
Proof.
  intros [Hu _]%get_current_user_Ok. do 2 eexists.
  destruct (BlogPost_bounds post) as [Htitle%title_bounds Hcontent%content_bounds].
  split; [by apply create_post_Ok|]. simpl. split_and!; try done; try lia.
  - unfold_handler. unfold_monad. rewrite get_set, decide_True by done.
    unfold likes_of, comments_of. simpl. by rewrite !lookup_insert_eq.
  - unfold_handler. unfold_monad. rewrite get_set, decide_True by done.
    unfold comments_of. simpl. by rewrite lookup_insert_eq.
  - intros q Hq. unfold_handler. unfold_monad.
    rewrite get_set, decide_False by done.
    unfold likes_of, comments_of. simpl.
    rewrite !lookup_insert_ne by done.
    by destruct (OrderedDict.get q (posts_db s)).
Qed.

(** X7. An authenticated [add_comment] on an existing post, given a body
    that is a [Comment] instance (1 to 1000 characters), always succeeds.
    The comment takes the next comment id, names the post and the
    authenticated user, and is appended after the post's earlier comments:
    [get_comments] then returns the former list followed by the new comment.
    The comments of every other post, and the posts, likes, users and post
    counter, are untouched. *)
Theorem add_comment_then_get_comments e p cm cred s u :
  (get_current_user e cred s).1 = Ok u →
  is_Some (OrderedDict.get p (posts_db s)) →
  ∃ c s' old, add_comment e p cm cred s = (Ok c, s') ∧
    cr_id c = comment_counter s + 1 ∧
    cr_content c = cm_content cm ∧
    (1 ≤ String.length (cr_content c) ≤ 1000)%nat ∧
    cr_author c = u ∧ cr_post_id c = p ∧
    cr_created_at c = utcnow e ∧
    get_comments p s = (Ok old, s) ∧
    get_comments p s' = (Ok (old ++ [c]), s') ∧
    (∀ q, q ≠ p → (get_comments q s').1 = (get_comments q s).1) ∧
    posts_db s' = posts_db s ∧ likes_db s' = likes_db s ∧
    users_db s' = users_db s ∧ post_counter s' = post_counter s ∧
    comment_counter s' = comment_counter s + 1.
Proof.
  intros [Hu _]%get_current_user_Ok [d Hget]. do 3 eexists.
  pose proof (comment_bounds _ (cm_valid cm)) as Hlen.
  split; [by eapply add_comment_Ok|]. simpl. split_and!; try done; try lia.
  - unfold_handler. unfold_monad. by rewrite Hget.
  - unfold_handler. unfold_monad. rewrite Hget.
    unfold comments_of at 1. simpl. rewrite lookup_insert_eq. simpl.
    by rewrite fmap_app.
  - intros q Hq. unfold_handler. unfold_monad.
    unfold comments_of. simpl. rewrite lookup_insert_ne by done.
    by destruct (OrderedDict.get q (posts_db s)).
Qed.

(** X8. In every reachable state each stored comment list belongs to an
    existing post, names that post in every comment, and is in strictly
    increasing id order (oldest first) with ids between 1 and the comment
    counter; and a comment id identifies one comment across all posts. *)
Theorem comments_are_ordered_and_globally_unique s :
  reachable s →
  (∀ p cs, comments_db s !! p = Some cs →
     is_Some (OrderedDict.get p (posts_db s)) ∧
     StronglySorted Z.lt (cd_id <$> cs) ∧
     Forall (λ c, cd_post_id c = p ∧ 1 ≤ cd_id c ≤ comment_counter s) cs) ∧
  (∀ p q cs cs' c c',
     comments_db s !! p = Some cs → comments_db s !! q = Some cs' →
     c ∈ cs → c' ∈ cs' → cd_id c = cd_id c' → p = q ∧ c = c').
Proof.
  intros Hreach. pose proof (reachable_wf _ Hreach) as Hwf.
  pose proof (reachable_integrity _ Hreach) as Hint. split.
  - intros p cs Hcs. destruct (int_comments s Hint p cs Hcs) as [Hs Hf].
    split_and!; [|done|].
    + assert (p ∈ dom (comments_db s)) as Hdom by (apply elem_of_dom; eauto).
      rewrite (wf_comments s Hwf), elem_of_list_to_set in Hdom.
      destruct (OrderedDict.get p (posts_db s)) eqn:Hget; [done|].
      by apply get_None in Hget.
    + eapply Forall_impl; [exact Hf|]. simpl. by intros c (? & ? & _).
  - intros p q cs cs' c c' Hcs Hcs' Hc Hc' Heq.
    assert (p = q) as <- by (by eapply (int_comment_ids s Hint)).
    split; [done|]. assert (cs' = cs) as -> by congruence.
    destruct (int_comments s Hint p cs Hcs) as [Hs _].
    by eapply sorted_ids_inj.
Qed.

(** X9. In every reachable state the author of every stored post, every
    user in a like set and the author of every stored comment is a
    registered user. *)
Theorem authors_likers_commenters_are_registered s :
  reachable s →
  (∀ p d, OrderedDict.get p (posts_db s) = Some d →
     is_Some (users_db s !! pd_author d)) ∧
  (∀ p X u, likes_db s !! p = Some X → u ∈ X → is_Some (users_db s !! u)) ∧
  (∀ p cs c, comments_db s !! p = Some cs → c ∈ cs →
     is_Some (users_db s !! cd_author c)).
Proof.
  intros Hint%reachable_integrity. split_and!.
  - intros p d Hin%get_Some_elem.
    exact (proj1 (Forall_forall _ _) (int_authors s Hint) _ Hin).
  - apply Hint.
  - intros p cs c Hcs Hin. destruct (int_comments s Hint p cs Hcs) as [_ Hf].
    by pose proof (proj1 (Forall_forall _ _) Hf _ Hin) as (_ & _ & ?).
Qed.

(** X10. Post ids range over 1 .. [post_counter]: in every reachable state a
    stored post has its id in that range, and [get_post] on an id below 1 or
    above the counter answers 404. *)
Theorem post_ids_lie_between_one_and_the_counter s p :
  reachable s →
  (∀ d, OrderedDict.get p (posts_db s) = Some d → 1 ≤ p ≤ post_counter s) ∧
  (p < 1 ∨ post_counter s < p → get_post p s = (Raise post_not_found, s)).
Proof.
  intros Hreach. pose proof (reachable_wf _ Hreach) as Hwf.
  pose proof (reachable_integrity _ Hreach) as Hint.
  assert (∀ d, OrderedDict.get p (posts_db s) = Some d → 1 ≤ p ≤ post_counter s)
    as Hrange.
  { intros d Hget. destruct (wf_get_id _ _ _ Hwf Hget) as (_ & Hle & _).
    pose proof (proj1 (Forall_forall _ _) (int_keys s Hint) _
                  (get_Some_elem _ _ _ Hget)) as Hge.
    simpl in Hge. lia. }
  split; [done|]. intros Hout. unfold_handler. unfold_monad.
  destruct (OrderedDict.get p (posts_db s)) as [d|] eqn:Hget; [|done].
  specialize (Hrange d eq_refl). lia.
Qed.

(** ** Composition and frames *)

Lemma get_current_user_users e cred s s' :
  users_db s' = users_db s →
  (get_current_user e cred s').1 = (get_current_user e cred s).1.
Proof.
  intros Hus. unfold_auth. unfold_monad.
  destruct (jwt_decode cred SECRET_KEY [ALGORITHM] (jwt_clock e)) as [pl|]; [|done].
  simpl. destruct (sub pl) as [u|]; [|done]. simpl. rewrite Hus.
  by destruct (users_db s !! u).
Qed.

(** X11. Like, then unlike.  In a reachable state, when a user who has not
    liked an existing post likes it and then unlikes it, both calls succeed,
    the second reports the original number of likes, and the store is back to
    exactly what it was before the like. *)
Theorem like_then_unlike_restores_the_store e1 e2 cred1 cred2 p s u :
  reachable s →
  (get_current_user e1 cred1 s).1 = Ok u →
  (get_current_user e2 cred2 s).1 = Ok u →
  is_Some (OrderedDict.get p (posts_db s)) →
  u ∉ likes_of s p →
  ∃ liked s1 unliked,
    like_post e1 p cred1 s = (Ok liked, s1) ∧
    lr_likes_count liked = len_set (likes_of s p) + 1 ∧
    unlike_post e2 p cred2 s1 = (Ok unliked, s) ∧
    lr_likes_count unliked = len_set (likes_of s p).
Proof.
  intros Hwf%reachable_wf [Hu1 _]%get_current_user_Ok Hu2 [d Hget] Hnotin.
  destruct (wf_likes_present _ _ _ Hwf Hget) as [X HX].
  assert (likes_of s p = X) as HlX by (unfold likes_of; by rewrite HX).
  do 3 eexists. split; [by eapply like_post_Ok|].
  set (s1 := with_likes_db (<[p:=likes_of s p ∪ {[u]}]> (likes_db s)) s).
  assert (likes_of s1 p = X ∪ {[u]}) as Hl1.
  { unfold likes_of at 1. simpl. by rewrite lookup_insert_eq, HlX. }
  assert ((get_current_user e2 cred2 s1).1 = Ok u) as [Hu2' _]%get_current_user_Ok.
  { by rewrite (get_current_user_users e2 cred2 s s1). }
  assert ((X ∪ {[u]}) ∖ {[u]} = X) as Hback.
  { rewrite HlX in Hnotin. set_solver. }
  split.
  { simpl. rewrite HlX. unfold len_set. rewrite size_union by set_solver.
    rewrite size_singleton. lia. }
  erewrite unlike_post_Ok; [|exact Hu2'|exact Hget|rewrite Hl1; set_solver].
  rewrite Hl1, Hback, HlX. split.
  - f_equal. unfold s1, with_likes_db. simpl. rewrite insert_insert_eq.
    rewrite insert_id by done. by destruct s.
  - done.
Qed.

Lemma delete_post_inv e p cred s m s' :
  delete_post e p cred s = (Ok m, s') →
  ∃ u d, get_current_user e cred s = (Ok u, s) ∧
         OrderedDict.get p (posts_db s) = Some d ∧ pd_author d = u.
Proof.
  intros Hdel.
  destruct (get_current_user_cases e cred s) as [(u & Hu & _)|(x & Hx & _)].
  - destruct (OrderedDict.get p (posts_db s)) as [d|] eqn:Hget.
    + destruct (decide (pd_author d = u)) as [Ha|Ha]; [by eauto|].
      revert Hdel. unfold_handler. unfold_monad. rewrite Hu, Hget.
      by rewrite decide_True.
    + revert Hdel. unfold_handler. unfold_monad. by rewrite Hu, Hget.
  - revert Hdel. unfold_handler. unfold_monad. by rewrite Hx.
Qed.

(** X12. A successful [delete_post] of post [p] touches nothing but [p]:
    every other post keeps its record, its like set and its comment list,
    the remaining posts keep their relative order, the users are unchanged,
    and neither counter moves (so the id is not handed out again). *)
Theorem delete_post_frame e p cred s m s' :
  delete_post e p cred s = (Ok m, s') →
  m = "Post deleted successfully" ∧
  users_db s' = users_db s ∧
  post_counter s' = post_counter s ∧
  comment_counter s' = comment_counter s ∧
  OrderedDict.keys (posts_db s') =
    filter (λ k, k ≠ p) (OrderedDict.keys (posts_db s)) ∧
  ∀ q, q ≠ p →
    OrderedDict.get q (posts_db s') = OrderedDict.get q (posts_db s) ∧
    likes_db s' !! q = likes_db s !! q ∧
    comments_db s' !! q = comments_db s !! q.
Proof.
  intros Hdel. destruct (delete_post_inv _ _ _ _ _ _ Hdel) as (u & d & Hu & Hget & Ha).
  rewrite (delete_post_Ok _ _ _ _ _ _ Hu Hget Ha) in Hdel.
  injection Hdel as <- <-. simpl. split_and!; try done.
  - apply keys_del.
  - intros q Hq. rewrite get_del, decide_False by done.
    by rewrite !lookup_delete_ne.
Qed.

(** X13. A request answered with an [HTTPException] writes nothing: for every
    endpoint and every kind of error (400, 401, 403, 404) the six globals
    after the request are the ones before it.  The same holds of a request
    that ends in an exception of the password library. *)
Theorem errors_write_nothing e r s x :
  ((handle e r s).1 = Raise x → (handle e r s).2 = s) ∧
  ((handle e r s).1 = Unhandled → (handle e r s).2 = s).
Proof.
  pose proof (handle_effect e r s) as Heff.
  destruct (handle e r s) as [out s']. simpl in *.
  split; intros ->; inversion Heff; congruence.
Qed.

(** X14. [login], [get_all_posts], [get_post], [get_comments] and
    [health_check] never write: whatever they answer, the six globals are
    left as they were. *)
Theorem read_only_endpoints_write_nothing e r s :
  read_only r = true → (handle e r s).2 = s.
Proof.
  intros Hro. pose proof (handle_read_only e r s) as H.
  by destruct r.
Qed.

(** ** Counters and identities over a whole run *)

Lemma effect_assigned_exact s r out s' :
  effect s r out s' →
  match assigned_post_id r out with
  | Some i => i = post_counter s + 1 ∧ post_counter s' = post_counter s + 1
  | None => post_counter s' = post_counter s
  end ∧
  match assigned_comment_id r out with
  | Some i => i = comment_counter s + 1 ∧ comment_counter s' = comment_counter s + 1
  | None => comment_counter s' = comment_counter s
  end.
Proof.
  destruct 1 as [r x|r|r a Hc| | post cred d Hid| | | | |p c cred d cd Hget Hid];
    simpl; try done.
  - by destruct r.
  - by destruct r.
  - destruct r; simplify_eq/=; done.
Qed.

Section consecutive.
Context (ctr : db → Z) (f : request → result response → option Z).
Context (Hexact : ∀ s r out s', effect s r out s' →
           match f r out with
           | Some i => i = ctr s + 1 ∧ ctr s' = ctr s + 1
           | None => ctr s' = ctr s
           end).

Lemma assigned_run_consecutive reqs s :
  ctr s ≤ ctr (run reqs s).2 ∧
  assigned f reqs (run reqs s).1 = seqZ (ctr s + 1) (ctr (run reqs s).2 - ctr s).
Proof.
  revert s. induction reqs as [|[e r] reqs IH]; intros s; simpl.
  - split; [lia|]. by rewrite seqZ_nil by lia.
  - pose proof (Hexact _ _ _ _ (handle_effect e r s)) as Hstep.
    destruct (handle e r s) as [out s1]. simpl in *.
    destruct (IH s1) as [Hle Heq].
    destruct (run reqs s1) as [outs s2]. simpl in *.
    destruct (f r out) as [i|].
    + destruct Hstep as [-> Hs1]. split; [lia|].
      rewrite (seqZ_cons (ctr s + 1)) by lia. f_equal.
      rewrite Heq. f_equal; lia.
    + rewrite Heq, Hstep. split; [lia|done].
Qed.
End consecutive.

(** X15. Ids are handed out consecutively from 1.  Along any run served from
    process start, the post ids returned by successful [create_post] calls
    are 1, 2, ..., [post_counter], and the comment ids returned by successful
    [add_comment] calls are 1, 2, ..., [comment_counter], in call order: each
    counter counts exactly the successful creations. *)
Theorem ids_are_consecutive_from_one reqs :
  let outs := (run reqs init_db).1 in
  let s := (run reqs init_db).2 in
  assigned assigned_post_id reqs outs = seqZ 1 (post_counter s) ∧
  assigned assigned_comment_id reqs outs = seqZ 1 (comment_counter s).
Proof.
  simpl.
  destruct (assigned_run_consecutive post_counter assigned_post_id
              (λ s r out s' H, proj1 (effect_assigned_exact s r out s' H))
              reqs init_db) as [_ Hposts].
  destruct (assigned_run_consecutive comment_counter assigned_comment_id
              (λ s r out s' H, proj2 (effect_assigned_exact s r out s' H))
              reqs init_db) as [_ Hcomments].
  simpl in *. rewrite Hposts, Hcomments. split; f_equal; lia.
Qed.

Lemma transition_post_identity e s r s' p d d' :
  wf s → transition e s r s' →
  OrderedDict.get p (posts_db s) = Some d →
  OrderedDict.get p (posts_db s') = Some d' →
  pd_id d' = pd_id d ∧ pd_author d' = pd_author d ∧
  pd_created_at d' = pd_created_at d.
Proof.
  intros Hwf Htr Hget.
  destruct Htr as [r|user hashed Hfree|post cred u Hu|q upd cred d0 Hq
                   |q cred d0 Hq|q cred u d0 Hu Hq|q cred u d0 Hq
                   |q c cred u d0 Hu Hq]; simpl;
    try (intros ?; by simplify_eq).
  - destruct (wf_get_id _ _ _ Hwf Hget) as (_ & Hle & _).
    rewrite get_set, decide_False by lia. intros ?. by simplify_eq.
  - rewrite get_set. destruct (decide (p = q)) as [->|Hne].
    + intros [= <-]. by simplify_eq.
    + intros ?. by simplify_eq.
  - rewrite get_del. destruct (decide (p = q)); [done|].
    intros ?. by simplify_eq.
Qed.

Lemma wf_absent_gone s p :
  wf s → OrderedDict.get p (posts_db s) = None → p ≤ post_counter s → gone p s.
Proof.
  intros Hwf Hget Hle. apply get_None in Hget.
  split_and!; [by apply get_None| | |done]; apply not_elem_of_dom.
  - by rewrite (wf_likes s Hwf), elem_of_list_to_set.
  - by rewrite (wf_comments s Hwf), elem_of_list_to_set.
Qed.

(** X16. A post never changes identity.  From a reachable state, if post [p]
    is stored before a run of requests and a post is stored under [p] after
    it, then it has the same ["id"], the same author and the same
    [created_at]: no endpoint rewrites them, and a deleted id is never given
    to a new post. *)
Theorem post_identity_is_immutable reqs s p d d' :
  reachable s →
  OrderedDict.get p (posts_db s) = Some d →
  OrderedDict.get p (posts_db (run reqs s).2) = Some d' →
  pd_id d' = pd_id d ∧ pd_author d' = pd_author d ∧
  pd_created_at d' = pd_created_at d.
Proof.
  revert s d. induction reqs as [|[e r] reqs IH]; intros s d Hreach Hget; simpl.
  - intros ?. by simplify_eq.
  - pose proof (reachable_wf _ Hreach) as Hwf.
    pose proof (reachable_step _ _ _ _ s e r Hreach) as Hreach1.
    pose proof (handle_transition e r s) as Htr.
    pose proof (effect_counters _ _ _ _ (handle_effect e r s)) as [[Hmono _] _].
    destruct (handle e r s) as [out s1]. simpl in *.
    destruct (wf_get_id _ _ _ Hwf Hget) as (_ & Hle & _).
    destruct (OrderedDict.get p (posts_db s1)) as [d1|] eqn:Hget1.
    + destruct (transition_post_identity _ _ _ _ _ _ _ Hwf Htr Hget Hget1)
        as (Hid & Hauthor & Hcreated).
      specialize (IH s1 d1 Hreach1 Hget1).
      destruct (run reqs s1) as [outs s2]. simpl in *.
      intros Hget2. destruct (IH Hget2) as (? & ? & ?).
      split_and!; congruence.
    + assert (gone p s1) as Hgone.
      { apply wf_absent_gone; [by apply reachable_wf|done|lia]. }
      pose proof (run_gone p reqs s1 Hgone) as (Hnone & _).
      destruct (run reqs s1) as [outs s2]. simpl in *. congruence.
Qed.

(** ** Field bounds in the stores *)

Lemma transition_bounds e s r s' :
  within_field_bounds s → transition e s r s' → within_field_bounds s'.
Proof.
  intros [Hposts Hcomments] Htr.
  destruct Htr as [r|user hashed Hfree|post cred u Hu|p upd cred d Hget
                   |p cred d Hget|p cred u d Hu Hget|p cred u d Hget
                   |p c cred u d Hu Hget]; try by split.
  - split; simpl.
    + apply Forall_set; [|done]. simpl. apply BlogPost_bounds.
    + intros p cs. rewrite lookup_insert.
      destruct (decide (post_counter s + 1 = p)) as [<-|Hne]; [|apply Hcomments].
      intros [= <-]. constructor.
  - split; simpl; [|done].
    apply Forall_set; [|done]. simpl.
    destruct (proj1 (Forall_forall _ _) Hposts _ (get_Some_elem _ _ _ Hget))
      as [Ht Hc].
    by apply (patched_bounds e).
  - split; simpl.
    + by apply Forall_del.
    + intros q cs. rewrite lookup_delete.
      destruct (decide (p = q)); [done|]. apply Hcomments.
  - split; simpl; [done|].
    intros q cs. rewrite lookup_insert.
    destruct (decide (p = q)) as [<-|Hne]; [|apply Hcomments].
    intros [= <-]. apply Forall_app. split.
    + unfold comments_of. destruct (comments_db s !! p) as [cs0|] eqn:Hcs0; simpl.
      * by eapply Hcomments.
      * constructor.
    + repeat constructor. simpl. apply cm_valid.
Qed.

Lemma reachable_bounds s : reachable s → within_field_bounds s.
Proof.
  induction 1 as [|s e r Hs IH].
  - split; simpl; [constructor|done].
  - eapply transition_bounds; [exact IH|apply handle_transition].
Qed.

(** X17. The [Field] constraints of the request models hold of everything
    stored: in every reachable state each post has a title of 1 to 200
    characters and a non-empty content, also after any number of updates, and
    each comment has a content of 1 to 1000 characters. *)
Theorem stored_text_is_within_field_bounds s :
  reachable s →
  (∀ p d, OrderedDict.get p (posts_db s) = Some d →
     (1 ≤ String.length (pd_title d) ≤ 200)%nat ∧
     (1 ≤ String.length (pd_content d))%nat) ∧
  (∀ p cs c, comments_db s !! p = Some cs → c ∈ cs →
     (1 ≤ String.length (cd_content c) ≤ 1000)%nat).
Proof.
  intros [Hposts Hcomments]%reachable_bounds. split.
  - intros p d Hin%get_Some_elem.
    destruct (proj1 (Forall_forall _ _) Hposts _ Hin) as [Ht Hc]. simpl in *.
    split; [by apply title_bounds|by apply content_bounds].
  - intros p cs c Hcs Hin. apply comment_bounds.
    exact (proj1 (Forall_forall _ _) (Hcomments p cs Hcs) _ Hin).
Qed.

End properties.

(** * Closed examples *)

Lemma walk_outputs :
  (Toy.run Demo.walk init_db).1 =
  [ Ok (Resp_user {| ur_username := "alice"; ur_email := "a@x.com" |});
    Ok (Resp_user {| ur_username := "bob"; ur_email := "b@x.com" |});
    Ok (Resp_token {| access_token := "alice"; token_type := "bearer" |});
    Ok (Resp_post {| id := 1; title := "hello"; content := "world";
                     author := "alice"; created_at := 3; updated_at := 3;
                     likes_count := 0; comments_count := 0 |});
    Ok (Resp_like {| message := "Post liked successfully"; lr_likes_count := 1 |});
    Raise {| status_code := 400; detail := "You have already liked this post" |};
    Ok (Resp_comment {| cr_id := 1; cr_content := "nice!"; cr_author := "bob";
                        cr_post_id := 1; cr_created_at := 6 |});
    Ok (Resp_post {| id := 1; title := "hello"; content := "world";
                     author := "alice"; created_at := 3; updated_at := 3;
                     likes_count := 1; comments_count := 1 |});
    Ok (Resp_message "Post deleted successfully");
    Raise {| status_code := 404; detail := "Post not found" |} ].
Proof. vm_compute. reflexivity. Qed.

Lemma demo_state_reachable :
  reachable Toy.pwd_hash Toy.pwd_verify Toy.jwt_encode Toy.jwt_decode Demo.state.
Proof. apply reachable_run, reachable_init. Qed.

(** C1, as the claim words it, fails.  In the reachable state [Demo.state]
    the two posts were created within the same microsecond, and
    [get_all_posts] lists them by increasing id (insertion order), which is
    not the claimed newest-first order with ties by decreasing id. *)
Lemma get_all_posts_ties_not_id_descending :
  reachable Toy.pwd_hash Toy.pwd_verify Toy.jwt_encode Toy.jwt_decode Demo.state ∧
  ∃ a b, get_all_posts Demo.state = (Ok [a; b], Demo.state) ∧
         created_at a = created_at b ∧ id a = 1 ∧ id b = 2 ∧
         ¬ StronglySorted newest_first_ties_id_descending [a; b].
Proof.
  split; [apply demo_state_reachable|].
  do 2 eexists. split; [vm_compute; reflexivity|].
  split_and!; [reflexivity..|].
  intros [Hhd _]%StronglySorted_cons.
  apply Forall_cons in Hhd as [[_ Htie] _].
  specialize (Htie eq_refl). vm_compute in Htie. discriminate.
Qed.

Lemma get_all_posts_newest_first_then_insertion_order_witness :
  ∃ l, get_all_posts Demo.state = (Ok l, Demo.state) ∧
       StronglySorted newest_first_ties_id_ascending l ∧
       id <$> l ≡ₚ OrderedDict.keys (posts_db Demo.state).
Proof.
  apply (get_all_posts_newest_first_then_insertion_order
           Toy.pwd_hash Toy.pwd_verify Toy.jwt_encode Toy.jwt_decode).
  apply reachable_run, reachable_init.
Defined.

Lemma failed_checks_raise_and_write_nothing_witness :
  ∃ x, status_code x = HTTP_403_FORBIDDEN ∧
       Toy.handle (Toy.env0 9) (Req_delete_post 1 "bob") Demo.state
       = (Raise x, Demo.state).
Proof.
  destruct (failed_checks_raise_and_write_nothing
              Toy.pwd_hash Toy.pwd_verify Toy.jwt_encode Toy.jwt_decode
              (Toy.env0 9) (Req_delete_post 1 "bob") "bob" Demo.state eq_refl)
    as (_ & _ & Hforbidden).
  apply (Hforbidden "bob" 1 Demo.first_post); [reflexivity..|].
  vm_compute. discriminate.
Defined.

Lemma delete_post_cascade_witness :
  ∃ s', delete_post Toy.jwt_decode (Toy.env0 9) 1 "alice" Demo.state
        = (Ok "Post deleted successfully", s') ∧
    ∀ reqs,
      let s'' := (Toy.run reqs s').2 in
      OrderedDict.get 1 (posts_db s'') = None ∧
      likes_db s'' !! 1 = None ∧
      comments_db s'' !! 1 = None ∧
      get_post 1 s'' = (Raise post_not_found, s'') ∧
      get_comments 1 s'' = (Raise post_not_found, s'') ∧
      (∀ e' cred' u', (get_current_user Toy.jwt_decode e' cred' s'').1 = Ok u' →
         like_post Toy.jwt_decode e' 1 cred' s'' = (Raise post_not_found, s'') ∧
         unlike_post Toy.jwt_decode e' 1 cred' s'' = (Raise post_not_found, s'')) ∧
      (∃ l, get_all_posts s'' = (Ok l, s'') ∧ 1 ∉ id <$> l).
Proof.
  apply (delete_post_cascade
           Toy.pwd_hash Toy.pwd_verify Toy.jwt_encode Toy.jwt_decode
           (Toy.env0 9) 1 "alice" Demo.state "alice" Demo.first_post).
  - apply reachable_run, reachable_init.
  - reflexivity.
  - reflexivity.
  - reflexivity.
Defined.

Lemma like_unlike_contract_witness :
  like_post Toy.jwt_decode (Toy.env0 9) 1 "bob" Demo.state =
    (Raise {| status_code := HTTP_400_BAD_REQUEST;
              detail := "You have already liked this post" |}, Demo.state) ∧
  ∃ s', unlike_post Toy.jwt_decode (Toy.env0 9) 1 "bob" Demo.state =
          (Ok {| message := "Post unliked successfully";
                 lr_likes_count := len_set (likes_of s' 1) |}, s') ∧
        len_set (likes_of s' 1) = 0.
Proof.
  destruct (like_unlike_contract Toy.jwt_decode (Toy.env0 9) 1 "bob"
              Demo.state "bob" eq_refl) as [_ Hexists].
  destruct Hexists as (Hconflict & _ & _ & Hunlike).
  { exists Demo.first_post. reflexivity. }
  assert ("bob" ∈ likes_of Demo.state 1) as Hin.
  { compute_done. }
  split; [by apply Hconflict|].
  destruct (Hunlike Hin) as (s' & Hres & _ & Hcount & _).
  exists s'. split; [exact Hres|]. rewrite Hcount. reflexivity.
Defined.

Lemma login_reveals_registered_username_when_verify_raises_witness :
  login Toy.pwd_verify Toy.jwt_encode (Toy.env0 9)
    {| ul_username := "alice"; ul_password := Demo.nul_password |} Demo.state
  = (Unhandled, Demo.state) ∧
  login Toy.pwd_verify Toy.jwt_encode (Toy.env0 9)
    {| ul_username := "carol"; ul_password := Demo.nul_password |} Demo.state
  = (Raise {| status_code := HTTP_401_UNAUTHORIZED;
              detail := "Incorrect username or password" |}, Demo.state).
Proof.
  apply (login_reveals_registered_username_when_verify_raises
           Toy.pwd_verify Toy.jwt_encode (Toy.env0 9) "alice" "carol"
           Demo.nul_password Demo.state
           {| ud_username := "alice"; ud_email := "a@x.com";
              ud_hashed_password := "s$pw1" |}).
  - vm_compute. reflexivity.
  - vm_compute. reflexivity.
  - vm_compute. reflexivity.
Defined.

Lemma update_post_frame_witness :
  ∃ d d',
    OrderedDict.get 1 (posts_db Demo.state) = Some d ∧
    OrderedDict.get 1 (posts_db Demo.state_after_retitle) = Some d' ∧
    pd_title d' = "hi" ∧ pd_content d' = pd_content d ∧
    pd_updated_at d' = 7.
Proof.
  destruct (update_post_frame Toy.jwt_decode (Toy.env0 7) 1 Demo.retitle "alice"
              Demo.state Demo.retitled Demo.state_after_retitle)
    as (d & d' & Hd & Hd' & Htitle & Hcontent & _ & _ & _ & Hupdated & _).
  { vm_compute. reflexivity. }
  exists d, d'. split_and!; done.
Defined.

Lemma ids_strictly_increasing_never_reused_witness :
  assigned assigned_post_id Demo.session (Toy.run Demo.session init_db).1
    = [1; 2] ∧
  StronglySorted Z.lt
    (assigned assigned_post_id Demo.session (Toy.run Demo.session init_db).1).
Proof.
  split; [reflexivity|].
  apply (ids_strictly_increasing_never_reused
           Toy.pwd_hash Toy.pwd_verify Toy.jwt_encode Toy.jwt_decode
           Demo.session).
Defined.

Lemma counts_match_stores_witness :
  ∃ X cs, likes_db Demo.state !! 1 = Some X ∧
          comments_db Demo.state !! 1 = Some cs ∧
          get_post 1 Demo.state =
            (Ok (mk_BlogPostResponse Demo.first_post
                   (Z.of_nat (size X)) (Z.of_nat (length cs))), Demo.state).
Proof.
  destruct (counts_match_stores
              Toy.pwd_hash Toy.pwd_verify Toy.jwt_encode Toy.jwt_decode
              Demo.state) as [Hget _].
  { apply reachable_run, reachable_init. }
  apply Hget. reflexivity.
Defined.

(** C9, as the claim words it, fails.  The username "dave" is free in
    [Demo.state], yet registering it with a password the hasher refuses
    does not succeed: the exception is not caught and nothing is stored. *)
Lemma register_fails_for_a_free_username :
  let dave := {| u_username := "dave"; u_email := "d@x.com";
                 u_password := Demo.nul_password |} in
  users_db Demo.state !! u_username dave = None ∧
  register Toy.pwd_hash (Toy.env0 9) dave Demo.state = (Unhandled, Demo.state) ∧
  ¬ ((∀ resp s', register Toy.pwd_hash (Toy.env0 9) dave Demo.state ≠ (Ok resp, s'))
     ↔ is_Some (users_db Demo.state !! u_username dave)).
Proof.
  intros dave.
  assert (users_db Demo.state !! u_username dave = None) as Hfree
    by (vm_compute; reflexivity).
  assert (register Toy.pwd_hash (Toy.env0 9) dave Demo.state
          = (Unhandled, Demo.state)) as Hreg by (vm_compute; reflexivity).
  split_and!; [done|done|].
  intros [Hfails _]. rewrite Hfree in Hfails.
  destruct Hfails as [ud Hud]; [|done].
  intros resp s'. by rewrite Hreg.
Qed.

Lemma register_answers_400_iff_username_taken_witness :
  (∃ x s', register Toy.pwd_hash (Toy.env0 9) Demo.alice Demo.state
           = (Raise x, s')) ∧
  register Toy.pwd_hash (Toy.env0 9) Demo.nobody Demo.state
  = (Ok {| ur_username := EmptyString; ur_email := EmptyString |},
     with_users_db
       (<[EmptyString := {| ud_username := EmptyString; ud_email := EmptyString;
                            ud_hashed_password := "s$" |}]> (users_db Demo.state))
       Demo.state).
Proof.
  split.
  - apply (register_answers_400_iff_username_taken Toy.pwd_hash
             (Toy.env0 9) Demo.alice Demo.state).
    vm_compute. eexists. reflexivity.
  - apply (register_answers_400_iff_username_taken Toy.pwd_hash
             (Toy.env0 9) Demo.nobody Demo.state).
    + vm_compute. reflexivity.
    + vm_compute. reflexivity.
Defined.

Lemma like_and_comment_keys_are_post_ids_witness :
  dom (likes_db Demo.state) = list_to_set (OrderedDict.keys (posts_db Demo.state)) ∧
  dom (comments_db Demo.state) = list_to_set (OrderedDict.keys (posts_db Demo.state)).
Proof.
  destruct (like_and_comment_keys_are_post_ids
              Toy.pwd_hash Toy.pwd_verify Toy.jwt_encode Toy.jwt_decode
              Demo.state) as (Hlikes & Hcomments & _).
  { apply reachable_run, reachable_init. }
  by split.
Defined.

(** ** Closed examples for the further properties *)

Lemma get_current_user_accepts_registered_subjects_witness :
  (get_current_user Toy.jwt_decode (Toy.env0 9) "alice" Demo.state).1 = Ok "alice".
Proof.
  destruct (get_current_user_accepts_registered_subjects Toy.jwt_decode
              (Toy.env0 9) "alice" Demo.state) as (_ & Hiff & _).
  apply Hiff. split.
  - eexists. split; reflexivity.
  - eexists. vm_compute. reflexivity.
Defined.

Lemma login_issues_thirty_minute_bearer_token_witness :
  ∃ tok, login Toy.pwd_verify Toy.jwt_encode (Toy.env0 9)
           {| ul_username := "alice"; ul_password := "pw1" |} Demo.state
         = (Ok tok, Demo.state).
Proof.
  destruct (login_issues_thirty_minute_bearer_token Toy.pwd_verify Toy.jwt_encode
              (Toy.env0 9) {| ul_username := "alice"; ul_password := "pw1" |}
              Demo.state) as [_ Hok].
  apply (Hok {| ud_username := "alice"; ud_email := "a@x.com";
                ud_hashed_password := "s$pw1" |}); vm_compute; reflexivity.
Defined.

Lemma registered_users_are_permanent_witness :
  users_db (Toy.run Demo.walk Demo.state).2 !! "alice"
  = Some {| ud_username := "alice"; ud_email := "a@x.com";
            ud_hashed_password := "s$pw1" |}.
Proof.
  apply (registered_users_are_permanent
           Toy.pwd_hash Toy.pwd_verify Toy.jwt_encode Toy.jwt_decode).
  vm_compute. reflexivity.
Defined.

Lemma register_then_login_witness :
  ∃ resp s1,
    register Toy.pwd_hash (Toy.env0 9)
      {| u_username := "carol"; u_email := "c@x.com"; u_password := "pw3" |}
      Demo.state = (Ok resp, s1) ∧
    ∃ tok, login Toy.pwd_verify Toy.jwt_encode (Toy.env0 20)
             {| ul_username := "carol"; ul_password := "pw3" |}
             (Toy.run Demo.walk s1).2
           = (Ok tok, (Toy.run Demo.walk s1).2).
Proof.
  apply (register_then_login
           Toy.pwd_hash Toy.pwd_verify Toy.jwt_encode Toy.jwt_decode
           (Toy.env0 9)
           {| u_username := "carol"; u_email := "c@x.com"; u_password := "pw3" |}
           Demo.state (Toy.env0 20) Demo.walk "s$pw3").
  - vm_compute. reflexivity.
  - vm_compute. reflexivity.
  - vm_compute. reflexivity.
Defined.

Lemma login_token_authenticates_later_witness :
  get_current_user Toy.jwt_decode (Toy.env0 99) "alice"
    (Toy.run Demo.walk Demo.state).2
  = (Ok "alice", (Toy.run Demo.walk Demo.state).2).
Proof.
  apply (login_token_authenticates_later
           Toy.pwd_hash Toy.pwd_verify Toy.jwt_encode Toy.jwt_decode
           (Toy.env0 9) {| ul_username := "alice"; ul_password := "pw1" |}
           Demo.state {| access_token := "alice"; token_type := "bearer" |}
           Demo.state (Toy.env0 99) Demo.walk
           {| sub := Some "alice"; exp := 0 |}).
  - vm_compute. reflexivity.
  - reflexivity.
  - reflexivity.
Defined.

Lemma create_post_then_get_post_witness :
  ∃ b s', create_post Toy.jwt_decode (Toy.env0 9)
            {| bp_title := "third"; bp_content := "post"; bp_author := Some "alice";
               bp_valid := eq_refl |}
            "bob" Demo.state = (Ok b, s') ∧
          id b = 3 ∧ author b = "bob" ∧ get_post 3 s' = (Ok b, s').
Proof.
  destruct (create_post_then_get_post Toy.jwt_decode (Toy.env0 9)
              {| bp_title := "third"; bp_content := "post"; bp_author := Some "alice";
               bp_valid := eq_refl |}
              "bob" Demo.state "bob" eq_refl)
    as (b & s' & Hcreate & Hid & _ & _ & _ & _ & Hauthor & _ & _ & _ & _ & _ & _ & _
        & Hget & _).
  exists b, s'. rewrite Hid in Hget. split_and!; done.
Defined.

Lemma add_comment_then_get_comments_witness :
  ∃ c s' old,
    add_comment Toy.jwt_decode (Toy.env0 9) 1 {| cm_content := "thanks"; cm_valid := eq_refl |} "alice"
      Demo.state = (Ok c, s') ∧
    cr_id c = 2 ∧
    get_comments 1 Demo.state = (Ok old, Demo.state) ∧
    get_comments 1 s' = (Ok (old ++ [c]), s').
Proof.
  destruct (add_comment_then_get_comments Toy.jwt_decode (Toy.env0 9) 1
              {| cm_content := "thanks"; cm_valid := eq_refl |} "alice" Demo.state "alice" eq_refl)
    as (c & s' & old & Hadd & Hid & _ & _ & _ & _ & _ & Hold & Hnew & _).
  { exists Demo.first_post. reflexivity. }
  exists c, s', old. split_and!; done.
Defined.

Lemma comments_are_ordered_and_globally_unique_witness :
  let c := {| cd_id := 1; cd_content := "nice!"; cd_author := "bob";
              cd_post_id := 1; cd_created_at := 5 |} in
  comments_db Demo.state !! 1 = Some [c] ∧
  is_Some (OrderedDict.get 1 (posts_db Demo.state)) ∧
  StronglySorted Z.lt (cd_id <$> [c]) ∧
  Forall (λ c, cd_post_id c = 1 ∧ 1 ≤ cd_id c ≤ comment_counter Demo.state) [c].
Proof.
  intros c.
  assert (comments_db Demo.state !! 1 = Some [c]) as Hc by (vm_compute; reflexivity).
  split; [exact Hc|].
  destruct (comments_are_ordered_and_globally_unique
              Toy.pwd_hash Toy.pwd_verify Toy.jwt_encode Toy.jwt_decode Demo.state)
    as [Hper _].
  { apply reachable_run, reachable_init. }
  exact (Hper 1 [c] Hc).
Defined.

Lemma authors_likers_commenters_are_registered_witness :
  is_Some (users_db Demo.state !! pd_author Demo.first_post).
Proof.
  destruct (authors_likers_commenters_are_registered
              Toy.pwd_hash Toy.pwd_verify Toy.jwt_encode Toy.jwt_decode Demo.state)
    as (Hauthors & _ & _).
  { apply reachable_run, reachable_init. }
  apply (Hauthors 1). vm_compute. reflexivity.
Defined.

Lemma post_ids_lie_between_one_and_the_counter_witness :
  get_post 0 Demo.state = (Raise post_not_found, Demo.state) ∧
  get_post 3 Demo.state = (Raise post_not_found, Demo.state).
Proof.
  split.
  - apply (post_ids_lie_between_one_and_the_counter
             Toy.pwd_hash Toy.pwd_verify Toy.jwt_encode Toy.jwt_decode Demo.state 0);
      [apply reachable_run, reachable_init|left; reflexivity].
  - apply (post_ids_lie_between_one_and_the_counter
             Toy.pwd_hash Toy.pwd_verify Toy.jwt_encode Toy.jwt_decode Demo.state 3);
      [apply reachable_run, reachable_init|right; reflexivity].
Defined.

Lemma like_then_unlike_restores_the_store_witness :
  ∃ liked s1 unliked,
    like_post Toy.jwt_decode (Toy.env0 9) 2 "bob" Demo.state = (Ok liked, s1) ∧
    lr_likes_count liked = len_set (likes_of Demo.state 2) + 1 ∧
    unlike_post Toy.jwt_decode (Toy.env0 10) 2 "bob" s1 = (Ok unliked, Demo.state) ∧
    lr_likes_count unliked = len_set (likes_of Demo.state 2).
Proof.
  apply (like_then_unlike_restores_the_store
           Toy.pwd_hash Toy.pwd_verify Toy.jwt_encode Toy.jwt_decode
           (Toy.env0 9) (Toy.env0 10) "bob" "bob" 2 Demo.state "bob").
  - apply reachable_run, reachable_init.
  - reflexivity.
  - reflexivity.
  - eexists. vm_compute. reflexivity.
  - compute_done.
Defined.

Lemma delete_post_frame_witness :
  users_db (delete_post Toy.jwt_decode (Toy.env0 9) 1 "alice" Demo.state).2
  = users_db Demo.state ∧
  post_counter (delete_post Toy.jwt_decode (Toy.env0 9) 1 "alice" Demo.state).2
  = post_counter Demo.state.
Proof.
  destruct (delete_post_frame Toy.jwt_decode (Toy.env0 9) 1 "alice" Demo.state
              "Post deleted successfully"
              (delete_post Toy.jwt_decode (Toy.env0 9) 1 "alice" Demo.state).2)
    as (_ & Husers & Hcounter & _).
  { vm_compute. reflexivity. }
  by split.
Defined.

Lemma errors_write_nothing_witness :
  (Toy.handle (Toy.env0 9) (Req_like_post 1 "bob") Demo.state).2 = Demo.state.
Proof.
  destruct (errors_write_nothing
              Toy.pwd_hash Toy.pwd_verify Toy.jwt_encode Toy.jwt_decode
              (Toy.env0 9) (Req_like_post 1 "bob") Demo.state
              {| status_code := 400; detail := "You have already liked this post" |})
    as [Hraise _].
  apply Hraise. vm_compute. reflexivity.
Defined.

Lemma read_only_endpoints_write_nothing_witness :
  (Toy.handle (Toy.env0 9) Req_get_all_posts Demo.state).2 = Demo.state.
Proof.
  apply (read_only_endpoints_write_nothing
           Toy.pwd_hash Toy.pwd_verify Toy.jwt_encode Toy.jwt_decode
           (Toy.env0 9) Req_get_all_posts Demo.state).
  reflexivity.
Defined.

Lemma ids_are_consecutive_from_one_witness :
  assigned assigned_post_id Demo.session (Toy.run Demo.session init_db).1
  = seqZ 1 (post_counter Demo.state) ∧
  assigned assigned_comment_id Demo.session (Toy.run Demo.session init_db).1
  = seqZ 1 (comment_counter Demo.state).
Proof.
  apply (ids_are_consecutive_from_one
           Toy.pwd_hash Toy.pwd_verify Toy.jwt_encode Toy.jwt_decode Demo.session).
Defined.

Lemma post_identity_is_immutable_witness :
  let d' := {| pd_id := 1; pd_title := "hi"; pd_content := "world";
               pd_author := "alice"; pd_created_at := 3; pd_updated_at := 7 |} in
  OrderedDict.get 1
    (posts_db (Toy.run [(Toy.env0 7, Req_update_post 1 Demo.retitle "alice")]
                 Demo.state).2) = Some d' ∧
  pd_id d' = pd_id Demo.first_post ∧
  pd_author d' = pd_author Demo.first_post ∧
  pd_created_at d' = pd_created_at Demo.first_post.
Proof.
  intros d'.
  assert (OrderedDict.get 1
            (posts_db (Toy.run [(Toy.env0 7, Req_update_post 1 Demo.retitle "alice")]
                         Demo.state).2) = Some d') as Hd'
    by (vm_compute; reflexivity).
  split; [exact Hd'|].
  apply (post_identity_is_immutable
           Toy.pwd_hash Toy.pwd_verify Toy.jwt_encode Toy.jwt_decode
           [(Toy.env0 7, Req_update_post 1 Demo.retitle "alice")]
           Demo.state 1 Demo.first_post d').
  - apply reachable_run, reachable_init.
  - vm_compute. reflexivity.
  - exact Hd'.
Defined.

Lemma stored_text_is_within_field_bounds_witness :
  (1 ≤ String.length (pd_title Demo.first_post) ≤ 200)%nat ∧
  (1 ≤ String.length (pd_content Demo.first_post))%nat.
Proof.
  destruct (stored_text_is_within_field_bounds
              Toy.pwd_hash Toy.pwd_verify Toy.jwt_encode Toy.jwt_decode Demo.state)
    as [Hposts _].
  { apply reachable_run, reachable_init. }
  apply (Hposts 1). vm_compute. reflexivity.
Defined.
